(** * Solium (Ethlint): the linter core of [lib/solium.js]

    A shallow embedding of the [Solium] object, in the revision that has
    [reportInternal] and [lintAndFix]: the session state it keeps in its
    closure ([messages], [sourceCodeText], [currentConfig] and the
    listeners of the underlying [EventEmitter]), and the functions
    [reset], [lint], [lintAndFix], [report] and [reportInternal].

    JavaScript exceptions are modelled by a state-and-error monad in which
    the state survives a [throw], as the closure variables of the module
    do.  Objects that the caller owns (the [config] argument) live in a
    heap and are passed by reference.  The modules [lint] requires and that
    are not part of the sources (the parser, the rule registry, the
    inspectors, [ast-utils]) are parameters, given as classes; the fixer
    and the rule context are modelled from the specification. *)

From stdpp Require Import base tactics option list numbers strings pretty gmap sorting.

Set Warnings "-register-all".
Open Scope Z_scope.
Open Scope string_scope.
Open Scope list_scope.

(** ** JavaScript values *)

(** The JSON-like fragment of JavaScript values that configurations and
    issue fields range over.  Object fields are kept in insertion order,
    the order [Object.keys] enumerates them in. *)
Inductive Value : Type :=
| VUndefined
| VNull
| VBool (b : bool)
| VNum (z : Z)
| VStr (s : string)
| VArr (items : list Value)
| VObj (fields : list (string * Value)).

(** [ToBoolean]: what [if (v)], [v && ...] and [v || ...] test. *)
Definition truthy (v : Value) : bool :=
  match v with
  | VUndefined | VNull => false
  | VBool b => b
  | VNum z => negb (Z.eqb z 0)
  | VStr s => negb (String.eqb s "")
  | VArr _ | VObj _ => true
  end.

(** [typeof v === 'object'] (true of [null] and of arrays as well). *)
Definition typeof_object (v : Value) : bool :=
  match v with
  | VNull | VArr _ | VObj _ => true
  | _ => false
  end.

Fixpoint assoc_get (k : string) (fields : list (string * Value)) : Value :=
  match fields with
  | [] => VUndefined
  | (k', v) :: rest => if String.eqb k k' then v else assoc_get k rest
  end.

Fixpoint assoc_set (k : string) (v : Value) (fields : list (string * Value))
  : list (string * Value) :=
  match fields with
  | [] => [(k, v)]
  | (k', v') :: rest =>
      if String.eqb k k' then (k, v) :: rest else (k', v') :: assoc_set k v rest
  end.

(** [o[k]] on a non-nullish value; a property that is absent reads as
    [undefined]. *)
Definition get_field (k : string) (o : Value) : Value :=
  match o with
  | VObj fields => assoc_get k fields
  | _ => VUndefined
  end.

(** [o[k] = v] on an object. *)
Definition set_field (k : string) (v : Value) (o : Value) : Value :=
  match o with
  | VObj fields => VObj (assoc_set k v fields)
  | _ => o
  end.

Definition nullish (v : Value) : bool :=
  match v with
  | VUndefined | VNull => true
  | _ => false
  end.

(** [JSON.parse (JSON.stringify (v))] below the top level: a field whose
    value is [undefined] is dropped, an [undefined] array item becomes
    [null]. *)
Fixpoint json_copy (v : Value) : Value :=
  match v with
  | VArr items =>
      VArr (map (fun x => match x with VUndefined => VNull | _ => json_copy x end) items)
  | VObj fields =>
      VObj ((fix copy_fields (fs : list (string * Value)) : list (string * Value) :=
               match fs with
               | [] => []
               | (k, VUndefined) :: rest => copy_fields rest
               | (k, x) :: rest => (k, json_copy x) :: copy_fields rest
               end) fields)
  | _ => v
  end.

(** The name of a rule as it is spliced into a text with [+]: a missing
    property reads ["undefined"]. *)
Definition js_str (o : option string) : string := default "undefined" o.

(** ** AST nodes *)

(** A node of the tree the parser returns.  [nparent] is the [parent]
    property: [None] when the node has no such property, [Some p] when it
    has one whose value is [p] ([p = None] for the root, whose parent is
    no node). *)
Inductive Node : Type := mkNode {
  ntype : string;
  nstart : Z;
  nend : Z;
  nprops : list (string * Value);
  nparent : option (option Node);
  nchildren : list Node
}.

Definition set_parent (node : Node) (parent : option Node) : Node :=
  mkNode (ntype node) (nstart node) (nend node) (nprops node)
         (Some parent) (nchildren node).

Definition delete_parent (node : Node) : Node :=
  mkNode (ntype node) (nstart node) (nend node) (nprops node)
         None (nchildren node).

Definition set_children (node : Node) (kids : list Node) : Node :=
  mkNode (ntype node) (nstart node) (nend node) (nprops node)
         (nparent node) kids.

(** What a listener receives: [{ node: node, exit: false | true }]. *)
Record Emitted := mkEmitted { e_node : Node; e_exit : bool }.

(** ** Issues and messages *)

(** One textual edit, a half-open range of offsets of the source text and
    its replacement. *)
Record Edit := mkEdit {
  startOffset : nat;
  endOffset : nat;
  replacementText : string
}.

Record RuleDocs := mkDocs {
  recommended : bool;
  doc_type : string;
  description : string;
  replacedBy : option (list string)
}.

Record RuleMeta := mkMeta {
  docs : RuleDocs;
  schema : list Value;
  fixable : option string;
  deprecated : bool
}.

(** The [fix] property of an issue: absent, something that is no function,
    or the callback, given by the edits it returns for a fixer of the given
    kind. *)
Inductive FixArg : Type :=
| FixAbsent
| FixNotCallable
| FixFn (f : string -> list Edit).

Record Location := mkLocation { loc_line : option Z; loc_column : option Z }.

(** The object handed to [report] and [reportInternal]. *)
Record Issue := mkIssue {
  i_ruleId : option string;
  i_ruleName : option string;
  i_type : option string;
  i_node : option Node;
  i_message : Value;
  i_location : option Location;
  i_fix : FixArg;
  i_ruleMeta : option RuleMeta
}.


(** The argument of [report]/[reportInternal]: any value; [ArgOther]
    stands for the values [jsUtils.isStrictlyObject] refuses. *)
Inductive ReportArg : Type :=
| ArgOther (v : Value)
| ArgIssue (i : Issue).

(** An entry of the [messages] buffer.  [m_node] is the node the issue
    was reported on, as it was when reported; [m_fix] is the [fix]
    property, the edits the rule's callback returned. *)
Record Message := mkMessage {
  ruleName : option string;
  m_type : option string;
  m_node : option Node;
  message : Value;
  line : Z;
  column : Z;
  m_fix : option (list Edit);
  internal : bool
}.

(** ** Session state and exceptions *)

Abbreviation loc := positive.

(** A listener registered on the emitter, given by the issues it reports
    (through its rule context) when it is called with an event. *)
Definition Listener : Type := Emitted -> list ReportArg.

(** The closure variables of the module ([messages], [sourceCodeText],
    [currentConfig]), the listeners of the [EventEmitter] that [Solium]
    extends, the text [astUtils.init] last received, and the heap of
    objects that are passed by reference. *)
Record World := mkWorld {
  listeners : list (string * Listener);
  messages : list Message;
  sourceCodeText : string;
  currentConfig : option loc;
  astText : string;
  heap : gmap loc Value
}.

Definition with_listeners (ls : list (string * Listener)) (w : World) : World :=
  mkWorld ls (messages w) (sourceCodeText w) (currentConfig w) (astText w) (heap w).
Definition with_messages (ms : list Message) (w : World) : World :=
  mkWorld (listeners w) ms (sourceCodeText w) (currentConfig w) (astText w) (heap w).
Definition with_sourceCodeText (s : string) (w : World) : World :=
  mkWorld (listeners w) (messages w) s (currentConfig w) (astText w) (heap w).
Definition with_currentConfig (c : option loc) (w : World) : World :=
  mkWorld (listeners w) (messages w) (sourceCodeText w) c (astText w) (heap w).
Definition with_astText (s : string) (w : World) : World :=
  mkWorld (listeners w) (messages w) (sourceCodeText w) (currentConfig w) s (heap w).
Definition with_heap (h : gmap loc Value) (w : World) : World :=
  mkWorld (listeners w) (messages w) (sourceCodeText w) (currentConfig w) (astText w) h.

(** The state a freshly loaded module starts in. *)
Definition initial_world (h : gmap loc Value) : World :=
  mkWorld [] [] "" None "" h.

Inductive result (A : Type) : Type :=
| Ok (a : A)
| Throw (e : string).
Arguments Ok {A} a.
Arguments Throw {A} e.

(** A computation that reads and writes the session state and either
    returns or throws; the state reached when it throws is kept. *)
Definition M (A : Type) : Type := World -> result A * World.

Definition ret {A} (a : A) : M A := fun w => (Ok a, w).
Definition throw {A} (e : string) : M A := fun w => (Throw e, w).
Definition bind {A B} (c : M A) (k : A -> M B) : M B :=
  fun w => match c w with
           | (Ok a, w') => k a w'
           | (Throw e, w') => (Throw e, w')
           end.
Definition gets {A} (f : World -> A) : M A := fun w => (Ok (f w), w).
Definition modify (f : World -> World) : M unit := fun w => (Ok tt, f w).

Notation "'let!' x ':=' c 'in' k" := (bind c (fun x => k))
  (at level 10, x name, c at level 100, k at level 200).

(** [xs.forEach (f)] for an [f] that may throw. *)
Fixpoint forEach {A} (f : A -> M unit) (xs : list A) : M unit :=
  match xs with
  | [] => ret tt
  | x :: rest => let! _ := f x in forEach f rest
  end.

Definition dq : string := String (Ascii.ascii_of_nat 34) "".

(** ** Collaborators *)

(** [./utils/ast-utils]: [getLine] and [getColumn] work on the text
    passed to [init]. *)
Class AstUtils := {
  isASTNode : option Node -> bool;
  getLine : string -> option Node -> Z;
  getColumn : string -> option Node -> Z
}.

Section Reporting.
Context `{AstUtils}.

(** [error.message && typeof error.message === 'string'] *)
Definition is_description (v : Value) : bool :=
  match v with
  | VStr s => negb (String.eqb s "")
  | _ => false
  end.

Definition value_text (v : Value) : string :=
  match v with
  | VStr s => s
  | _ => ""
  end.

(** [Object.assign (issue, { internal: true, line: -1, column: -1 })] *)
Definition assign_internal (issue : Issue) : Message :=
  {| ruleName := i_ruleName issue; m_type := i_type issue;
     m_node := i_node issue; message := i_message issue;
     line := -1; column := -1; m_fix := None; internal := true |}.

Definition push (m : Message) : M unit :=
  modify (fun w => with_messages (messages w ++ [m]) w).

Definition reportInternal (issue : ReportArg) : M unit :=
  match issue with
  | ArgOther _ => throw "Invalid error object"
  | ArgIssue issue =>
      (* Assign line & column = -1 so messages.sort() brings the internal issues on top *)
      push (assign_internal issue)
  end.

(** The object literal [{ type: ty, message: msg }]. *)
Definition internal_issue (ty msg : string) : ReportArg :=
  ArgIssue (mkIssue None None (Some ty) None (VStr msg) None FixAbsent None).

Definition is_fixable (meta : RuleMeta) : bool :=
  match fixable meta with
  | Some s => negb (String.eqb s "")
  | None => false
  end.

Definition fix_ignored_text (name : option string) : string :=
  "[WARNING] The fixes supplied by rule " +:+ dq +:+ js_str name +:+ dq +:+
  " will be ignored since its " +:+ dq +:+ "meta" +:+ dq +:+
  " doesn't contain the " +:+ dq +:+ "fixable" +:+ dq +:+ " property.".

Definition report (error : ReportArg) : M unit :=
  match error with
  | ArgOther _ => throw "Invalid error object"
  | ArgIssue error =>
      if negb (isASTNode (i_node error)) then
        throw ("Rule " +:+ js_str (i_ruleId error) +:+ " does not provide a valid AST node")
      else if negb (is_description (i_message error)) then
        throw ("Rule " +:+ js_str (i_ruleId error) +:+
               " flags a node but doesn't provide an error description")
      else
        let location := default (mkLocation None None) (i_location error) in
        let! text := gets astText in
        let msg :=
          {| ruleName := i_ruleName error;
             m_type := i_type error;
             m_node := i_node error;
             message := i_message error;
             line := match loc_line location with
                     | Some l => if Z.eqb l 0 then getLine text (i_node error) else l
                     | None => getLine text (i_node error)
                     end;
             column := match loc_column location with
                       | Some c => c
                       | None => getColumn text (i_node error)
                       end;
             m_fix := None; internal := false |} in
        (* If rule supplies a fix, it can be added to the message reported after validation. *)
        match i_fix error with
        | FixAbsent => push msg
        | supplied =>
            match i_ruleMeta error with
            | None => throw "TypeError: Cannot read property 'fixable' of undefined"
            | Some meta =>
                if negb (is_fixable meta) then
                  let! _ := reportInternal
                              (internal_issue "warning" (fix_ignored_text (i_ruleName error))) in
                  push msg
                else
                  match supplied with
                  | FixFn f =>
                      push {| ruleName := ruleName msg; m_type := m_type msg;
                              m_node := m_node msg; message := message msg;
                              line := line msg; column := column msg;
                              m_fix := Some (f (default "" (fixable meta)));
                              internal := false |}
                  | _ =>
                      throw ("Rule " +:+ dq +:+ js_str (i_ruleName error) +:+ dq +:+
                             ": Attribute " +:+ dq +:+ "fix" +:+ dq +:+
                             " (reported as part of the error " +:+ dq +:+
                             value_text (i_message error) +:+ dq +:+ ") must be a function.")
                  end
            end
        end
  end.

End Reporting.

(** ** Rules and their contexts *)

(** What [new RuleContext (name, ruleConfig, ruleMeta, Solium)] binds. *)
Record RuleContext := mkContext {
  ctx_name : string;
  ctx_config : Value;
  ctx_meta : RuleMeta
}.

(** A rule module.  [verify] is given by the subscriptions it makes with
    [context.on (event, handler)], each handler by the objects it passes to
    [context.report] when it is called; it may throw instead. *)
Record RuleModule := mkRule {
  meta : RuleMeta;
  verify : RuleContext -> result (list (string * Listener))
}.

(** [./rules]: the rule loader and registry. *)
Class RuleRegistry := {
  rules_load : Value -> result (list (string * Value));
  rules_loadUsingDeprecatedConfigFormat : Value -> Value -> result (list (string * Value));
  rules_get : string -> option RuleModule
}.

(** [./utils/rule-inspector] *)
Class RuleInspector := {
  isAValidRuleObject : option RuleModule -> bool;
  areValidOptionsPassed : Value -> list Value -> bool
}.

(** [./utils/config-inspector], the part that is not fixed below. *)
Class ConfigInspector := {
  isFormatDeprecated : Value -> bool
}.

(** [solparse]: the tree, or the message of the error it throws. *)
Class Parser := {
  parse : string -> string + Node
}.

(** Modelled from the spec: [configInspector.isValid] is not part of the
    sources; section 4.3 step 2 rejects a configuration lacking a [rules]
    mapping, which is the test the earlier revision of [lint] makes inline:
    [config && typeof config === 'object' && config.rules &&
     typeof config.rules === 'object']. *)
Definition isValid (config : Value) : bool :=
  truthy config && typeof_object config &&
  truthy (get_field "rules" config) && typeof_object (get_field "rules" config).

(** Modelled from the spec: [RuleContext] is not part of the sources.  Its
    [report] (section 4.4) forwards the descriptor to [Solium.report], which
    validates it, after resolving the rule's name and severity from the
    bound rule; the rule's meta travels with it, since [Solium.report]
    reads [error.ruleMeta].  The other properties of the descriptor,
    [ruleId] among them, are the rule's. *)
Definition context_assign (ctx : RuleContext) (descriptor : ReportArg) : ReportArg :=
  match descriptor with
  | ArgIssue i =>
      ArgIssue (mkIssue (i_ruleId i) (Some (ctx_name ctx))
                        (match get_field "type" (ctx_config ctx) with
                         | VStr s => Some s
                         | _ => None
                         end)
                        (i_node i) (i_message i) (i_location i) (i_fix i)
                        (Some (ctx_meta ctx)))
  | other => other
  end.

(** Modelled from the spec: [RuleContext.on] (section 4.4) forwards the
    subscription to the session's emitter; the handler registered reports
    through the context. *)
Definition context_on (ctx : RuleContext) (sub : string * Listener) : string * Listener :=
  (fst sub, fun emitted => map (context_assign ctx) (snd sub emitted)).

(** [ToString] of a value spliced into a text. *)
Fixpoint js_text (v : Value) : string :=
  match v with
  | VUndefined => "undefined"
  | VNull => "null"
  | VBool true => "true"
  | VBool false => "false"
  | VNum z => pretty z
  | VStr s => s
  | VArr items =>
      (fix join (xs : list Value) : string :=
         match xs with
         | [] => ""
         | [x] => if nullish x then "" else js_text x
         | x :: rest => (if nullish x then "" else js_text x) +:+ "," +:+ join rest
         end) items
  | VObj _ => "[object Object]"
  end.

Definition join_names (names : list string) : string :=
  String.concat ", " (map (fun rn => dq +:+ rn +:+ dq) names).

(** ** The linter *)

Inductive SourceArg : Type :=
| SrcValue (v : Value)
| SrcBuffer (bytes : list Byte.byte).

(** [Buffer.prototype.toString ()]; a text is kept as its bytes. *)
Definition Buffer_toString (bytes : list Byte.byte) : string :=
  String.string_of_list_byte bytes.

Section Linter.
Context `{AstUtils} `{RuleRegistry} `{RuleInspector} `{ConfigInspector}.

(** Initialize all global variables: ensure nothing from the previous
    lint() gets carried to the next lint(). *)
Definition reset : M unit :=
  fun w =>
    let l := fresh (dom (heap w)) in
    (Ok tt, mkWorld [] [] "" (Some l) (astText w) (<[l := VObj []]> (heap w))).

(** [emitter.emit (type, emitted)]: the listeners of [type], in the order
    they were added; each reports its findings through [report]. *)
Definition emit (type : string) (emitted : Emitted) : M unit :=
  let! ls := gets listeners in
  forEach (fun l : string * Listener =>
             if String.eqb (fst l) type then forEach report (snd l emitted)
             else ret tt) ls.

(** Modelled from the spec: [EventGenerator] (section 4.1) emits the
    node's type tag with [{ node, exit: false | true }]. *)
Definition enterNode (node : Node) : M unit :=
  emit (ntype node) (mkEmitted node false).
Definition leaveNode (node : Node) : M unit :=
  emit (ntype node) (mkEmitted node true).

(** The [enter] and [leave] callbacks [lint] hands to [solExplore.traverse].
    Each returns the node as the callback leaves it. *)
Definition visitor_enter (node : Node) (parent : option Node) : M Node :=
  let node := set_parent node parent in   (* node.parent = parent *)
  let! _ := enterNode node in
  ret (delete_parent node).               (* delete node.parent *)

Definition visitor_leave (node : Node) : M Node :=
  let! _ := leaveNode node in
  ret node.

(** Modelled from the spec: [solExplore.traverse] (section 4.3 step 6) is a
    depth-first walk, children left to right, calling [enter (node, parent)]
    before a node's children and [leave (node)] after them.  The result is
    the tree as the walk leaves it. *)
Fixpoint traverse (node : Node) (parent : option Node) : M Node :=
  let! entered := visitor_enter node parent in
  let! kids :=
    (fix walk (cs : list Node) : M (list Node) :=
       match cs with
       | [] => ret []
       | c :: rest =>
           let! c' := traverse c (Some entered) in
           let! rest' := walk rest in
           ret (c' :: rest')
       end) (nchildren node) in
  visitor_leave (set_children entered kids).

Definition deref (l : loc) : M Value :=
  gets (fun w => default VUndefined (heap w !! l)).

Definition current : M Value :=
  gets (fun w => match currentConfig w with
                 | Some l => default VUndefined (heap w !! l)
                 | None => VNull
                 end).

(** [currentConfig.k = v] *)
Definition current_set (k : string) (v : Value) : M unit :=
  modify (fun w => match currentConfig w with
                   | Some l => with_heap (alter (set_field k v) l (heap w)) w
                   | None => w
                   end).

Definition deprecated_text (name : string) (meta : RuleMeta) : string :=
  ("[DEPRECATED] Rule " +:+ dq +:+ name +:+ dq +:+ " is deprecated.") +:+
  match replacedBy (docs meta) with
  | Some names => " Please use " +:+ join_names names +:+ " instead."
  | None => ""
  end.

(** The body of [Object.keys (currentConfig.rules).forEach]. *)
Definition load_rule (rules : Value) (name : string) : M unit :=
  let rule := rules_get name in
  let currentRuleConfig := get_field name rules in
  (* Check for validity of exposed rule object *)
  match rule with
  | Some r =>
      if negb (isAValidRuleObject rule) then
        throw ("A valid definition for rule '" +:+ name +:+ "' was not provided.")
      else if nullish currentRuleConfig then
        throw "TypeError: Cannot read property 'options' of undefined"
      (* Check for validity of options passed to the rule via soliumrc *)
      else if truthy (get_field "options" currentRuleConfig) &&
              negb (areValidOptionsPassed (get_field "options" currentRuleConfig)
                                          (schema (meta r))) then
        throw ("Invalid arguments were passed for rule " +:+ dq +:+ name +:+ dq +:+ ".")
      else
        (* If rule contains deprecated tag & is set to true, display deprecation notice. *)
        let! _ := if deprecated (meta r)
                  then reportInternal (internal_issue "warning" (deprecated_text name (meta r)))
                  else ret tt in
        let ctx := mkContext name currentRuleConfig (meta r) in
        match verify r ctx with
        | Ok subs =>
            modify (fun w => with_listeners (listeners w ++ map (context_on ctx) subs) w)
        | Throw e => throw e
        end
  | None =>
      if negb (isAValidRuleObject rule) then
        throw ("A valid definition for rule '" +:+ name +:+ "' was not provided.")
      else throw "TypeError: Cannot read property 'meta' of undefined"
  end.

End Linter.

(** ** Sorting *)

(** [Array.prototype.sort (compareFn)]: a stable sort; [x] is placed
    before [y] when [compareFn (x, y) <= 0] and [x] came first. *)
Section ArraySort.
Context {A : Type} (compareFn : A -> A -> Z).

Fixpoint sort_insert (x : A) (sorted : list A) : list A :=
  match sorted with
  | [] => [x]
  | y :: rest =>
      if Z.leb (compareFn x y) 0 then x :: y :: rest
      else y :: sort_insert x rest
  end.

Fixpoint array_sort (xs : list A) : list A :=
  match xs with
  | [] => []
  | x :: rest => sort_insert x (array_sort rest)
  end.

(** [a] may stand before [b] in a sorted array. *)
Definition before (a b : A) : Prop := (compareFn a b <= 0)%Z.

End ArraySort.

(** sort errors by line (column if line is same) *)
Definition compareMessages (a b : Message) : Z :=
  let lineDiff := line a - line b in
  if negb (Z.eqb lineDiff 0) then lineDiff else column a - column b.

(** ** [lint] *)

Definition lift {A} (r : result A) : M A := fun w => (r, w).

Definition decode_buffer (sourceCode : SourceArg) : result SourceArg :=
  match sourceCode with
  | SrcBuffer bytes => Ok (SrcValue (VStr (Buffer_toString bytes)))
  | SrcValue VNull => Throw "TypeError: Cannot read property 'constructor' of null"
  | other => Ok other
  end.

Definition alloc (v : Value) : M loc :=
  fun w => let l := fresh (dom (heap w)) in
           (Ok l, with_heap (<[l := v]> (heap w)) w).

Definition keys (o : Value) : list string :=
  match o with
  | VObj fields => map fst fields
  | _ => []
  end.

Definition deprecated_format_text : string :=
  "[DEPRECATED] You are using a deprecated soliumrc configuration format. " +:+
  "Please see the documentation to migrate from Solium v0 to v1.".

Definition deprecated_crf_text (crf : Value) : string :=
  "[DEPRECATED] Attribute " +:+ dq +:+ "custom-rules-filename" +:+ dq +:+
  " is now deprecated. Rules from " +:+ js_text crf +:+
  " were not loaded. Solium v1 supports plugins. Please check documentation.".

Section Lint.
Context `{AstUtils} `{RuleRegistry} `{RuleInspector} `{ConfigInspector} `{Parser}.

(** Lines 68-69 of [lint]: [currentConfig] becomes a deep copy of the
    caller's object, with an [options] attribute. *)
Definition copy_config (config : loc) : M unit :=
  let! original := deref config in
  let! copy := alloc (json_copy original) in                  (* deep copy config object *)
  let! _ := modify (with_currentConfig (Some copy)) in
  let! cur := current in
  current_set "options"
    (if truthy (get_field "options" cur) then get_field "options" cur else VObj []).

(** Lines 72-88 of [lint]: load meta information of rules. *)
Definition load_rules : M unit :=
  let! cur := current in
  if isFormatDeprecated cur then
    let crf := get_field "custom-rules-filename" cur in
    let! _ := reportInternal (internal_issue "warning" deprecated_format_text) in
    let! _ := if truthy crf
              then reportInternal (internal_issue "warning" (deprecated_crf_text crf))
              else ret tt in
    let! loaded := lift (rules_loadUsingDeprecatedConfigFormat (get_field "rules" cur) crf) in
    current_set "rules" (VObj loaded)
  else
    let! loaded := lift (rules_load cur) in
    current_set "rules" (VObj loaded).

(** Lines 90-117 of [lint]: every rule of [currentConfig.rules] is
    checked and subscribes. *)
Definition subscribe_rules : M unit :=
  let! cur := current in
  forEach (load_rule (get_field "rules" cur)) (keys (get_field "rules" cur)).

(** Lines 66-117 of [lint]. *)
Definition configure (sourceCode : string) (config : loc) : M unit :=
  let! _ := modify (with_sourceCodeText sourceCode) in
  let! _ := modify (with_astText sourceCode) in              (* astUtils.init *)
  let! _ := copy_config config in
  let! _ := load_rules in
  subscribe_rules.

(** Lines 142-160 of [lint]: drop the internal issues unless asked for,
    sort, hand the buffer over and empty it. *)
Definition collect : M (list Message) :=
  let! cur := current in
  let! _ :=
    if negb (truthy (get_field "returnInternalIssues" (get_field "options" cur)))
    then modify (fun w => with_messages
                            (filter (fun msg => internal msg = false) (messages w)) w)
    else ret tt in
  let! _ := modify (fun w => with_messages (array_sort compareMessages (messages w)) w) in
  let! errorObjects := gets messages in
  let! _ := modify (with_messages []) in
  ret errorObjects.

Definition lint (sourceCode : SourceArg) (config : loc) (noReset : bool)
  : M (list Message) :=
  let! sourceCode := lift (decode_buffer sourceCode) in
  match sourceCode with
  | SrcValue (VStr text) =>
      if String.eqb text "" then throw "A valid source code string was not passed."
      else
        let! original := deref config in
        if negb (isValid original) then
          throw ("A valid configuration object was not passed. " +:+
                 "Please check the documentation.")
        else
          let! _ := if negb noReset then reset else ret tt in
          let! _ := configure text config in
          match parse text with
          | inl e => throw ("An error occured while parsing the source code: " +:+ e)
          | inr AST =>
              let! _ := traverse AST None in
              collect
          end
  | _ => throw "A valid source code string was not passed."
  end.

End Lint.

(** ** Applying fixes *)

Definition edits_of (m : Message) : list Edit := default [] (m_fix m).

Definition has_edits (m : Message) : bool :=
  match edits_of m with
  | [] => false
  | _ :: _ => true
  end.

(** The least start offset and the greatest end offset among the edits of
    one diagnostic. *)
Definition min_start (edits : list Edit) : nat :=
  match edits with
  | [] => 0%nat
  | e :: rest => fold_right Nat.min (startOffset e) (map startOffset rest)
  end.

Definition max_end (edits : list Edit) : nat :=
  fold_right Nat.max 0%nat (map endOffset edits).

Definition compareByStart (a b : Message) : Z :=
  Z.of_nat (min_start (edits_of a)) - Z.of_nat (min_start (edits_of b)).

Definition compareEdits (a b : Edit) : Z :=
  Z.of_nat (startOffset a) - Z.of_nat (startOffset b).

(** Modelled from the spec: [SourceCodeFixer.applyFixes] is not part of the
    sources.  Section 4.5 step 3: scan once, tracking [frontier]; a
    diagnostic whose least edit start is [>= frontier] is accepted and
    moves the frontier to its greatest edit end, any other is rejected.
    The result is the accepted and the rejected diagnostics. *)
Fixpoint scan (frontier : nat) (diagnostics : list Message)
  : list Message * list Message :=
  match diagnostics with
  | [] => ([], [])
  | d :: rest =>
      if Nat.leb frontier (min_start (edits_of d)) then
        let (applied, rejected) := scan (max_end (edits_of d)) rest in
        (d :: applied, rejected)
      else
        let (applied, rejected) := scan frontier rest in
        (applied, d :: rejected)
  end.

(** Modelled from the spec: section 4.5 step 5, the unedited spans of the
    source and the replacement texts, in ascending offset order. *)
Fixpoint splice (source : string) (cursor : nat) (edits : list Edit) : string :=
  match edits with
  | [] => String.substring cursor (String.length source - cursor)%nat source
  | e :: rest =>
      String.substring cursor (startOffset e - cursor)%nat source +:+
      replacementText e +:+ splice source (endOffset e) rest
  end.

Record Fixed := mkFixed {
  fixesApplied_of : nat;
  fixedSourceCode_of : string;
  remainingErrorMessages : list Message
}.

(** Modelled from the spec: [SourceCodeFixer.applyFixes], section 4.5:
    select the diagnostics carrying an edit, sort them by least start
    offset, scan, and synthesize the text; diagnostics without edits stay
    in the remaining list. *)
Definition applyFixes (sourceCode : string) (errorMessages : list Message) : Fixed :=
  let selected := filter (fun m => has_edits m = true) errorMessages in
  let unfixed := filter (fun m => has_edits m = false) errorMessages in
  let sorted := array_sort compareByStart selected in
  let (applied, rejected) := scan 0%nat sorted in
  mkFixed (length applied)
          (splice sourceCode 0%nat
                  (array_sort compareEdits (concat (map edits_of applied))))
          (unfixed ++ rejected).




Record LintAndFix := mkLintAndFix {
  originalSourceCode : string;
  fixesApplied : nat;
  fixedSourceCode : string;
  errorMessages : list Message
}.

Definition source_text (sourceCode : SourceArg) : string :=
  match sourceCode with
  | SrcValue (VStr text) => text
  | _ => ""
  end.

Section LintAndFix.
Context `{AstUtils} `{RuleRegistry} `{RuleInspector} `{ConfigInspector} `{Parser}.

(** Lints, then applies fixes specified by rules and returns fixed code.
    When [lint] returns, [sourceCode] is a text. *)
Definition lintAndFix (sourceCode : SourceArg) (config : loc) (noReset : bool)
  : M LintAndFix :=
  let! sourceCode := lift (decode_buffer sourceCode) in
  let! errorObjects := lint sourceCode config noReset in
  let fixed := applyFixes (source_text sourceCode) errorObjects in
  ret (mkLintAndFix (source_text sourceCode) (fixesApplied_of fixed)
                    (fixedSourceCode_of fixed) (remainingErrorMessages fixed)).

End LintAndFix.

(** ** Invariants of computations *)

(** Started in a state of [P], [c] ends in a state of [Q], whether it
    returns or throws. *)
Definition hoare {A} (P : World -> Prop) (c : M A) (Q : World -> Prop) : Prop :=
  forall w r w', P w -> c w = (r, w') -> Q w'.

(** [c] keeps [P]: whatever state it ends in, returning or throwing. *)
Definition preserves {A} (P : World -> Prop) (c : M A) : Prop :=
  forall w r w', P w -> c w = (r, w') -> P w'.

(** Every internal entry of a buffer sits at the position line -1,
    column -1. *)
Definition internal_at_sentinel (ms : list Message) : Prop :=
  Forall (fun m => internal m = true -> line m = (-1)%Z /\ column m = (-1)%Z) ms.



(** Started in a state of [P], [c] returns, with a value and a state
    related by [Q]. *)
Definition returns {A} (P : World -> Prop) (c : M A) (Q : A -> World -> Prop) : Prop :=
  forall w, P w -> exists a w', c w = (Ok a, w') /\ Q a w'.

(** Started in a state of [P], [c] throws [e], in a state of [Q]. *)
Definition throws {A} (P : World -> Prop) (c : M A) (e : string) (Q : World -> Prop) : Prop :=
  forall w, P w -> exists w', c w = (Throw e, w') /\ Q w'.

Definition buffer_ok (w : World) : Prop := internal_at_sentinel (messages w).


(** Ascending by (line, column). *)
Definition position_le (a b : Message) : Prop :=
  (line a < line b \/ (line a = line b /\ column a <= column b))%Z.


(** The tree with the [parent] property removed from every node. *)
Fixpoint strip_parent (node : Node) : Node :=
  mkNode (ntype node) (nstart node) (nend node) (nprops node) None
         (map strip_parent (nchildren node)).

(** ** What [lint] makes of a configuration *)

(** The copy [lint] works on: the caller's object through JSON, with an
    [options] attribute. *)
Definition effective_config (config : Value) : Value :=
  let copy := json_copy config in
  set_field "options"
            (if truthy (get_field "options" copy) then get_field "options" copy
             else VObj [])
            copy.

(** [currentConfig] is a cell holding [v]. *)
Definition config_is (v : Value) (w : World) : Prop :=
  exists l, currentConfig w = Some l /\ heap w !! l = Some v.

(** The session holds [text] and works on the configuration [v]. *)
Definition working_on (text : string) (v : Value) (w : World) : Prop :=
  config_is v w /\ sourceCodeText w = text.

Section RuleChecks.
Context `{RuleRegistry} `{RuleInspector} `{ConfigInspector}.





End RuleChecks.

(** Induction over a tree by its children. *)
Section NodeInduction.
Variable Q : Node -> Prop.
Hypothesis step : forall node, Forall Q (nchildren node) -> Q node.

Fixpoint Node_children_ind (node : Node) : Q node :=
  step node
       ((fix go (l : list Node) : Forall Q l :=
           match l with
           | [] => Forall_nil_2 Q
           | c :: cs => Forall_cons_2 Q c cs (Node_children_ind c) (go cs)
           end) (nchildren node)).

End NodeInduction.

(** ** Sample collaborators and inputs *)

Module Sample.

(** A node is anything that is an object with a type tag; its line is kept
    in [nstart], its column in [nend]. *)
Definition astUtils : AstUtils :=
  {| isASTNode := fun n => match n with Some _ => true | None => false end;
     getLine := fun _ n => match n with Some n => nstart n | None => 0 end;
     getColumn := fun _ n => match n with Some n => nend n | None => 0 end |}.

Definition leaf (type : string) (l c : Z) : Node := mkNode type l c [] None [].

Definition program : Node :=
  mkNode "Program" 1 0 [] None [leaf "ContractStatement" 1 0; leaf "ExpressionStatement" 2 4].

Definition plain_meta : RuleMeta :=
  mkMeta (mkDocs true "error" "This is a rule" None) [] None false.

Definition fixable_meta : RuleMeta :=
  mkMeta (mkDocs true "error" "This is a rule" None) [] (Some "code") false.

Definition deprecated_meta : RuleMeta :=
  mkMeta (mkDocs true "warning" "This is a rule" (Some ["new-rule"])) [] None true.

(** [context.report ({ node: node, message: msg })] *)
Definition descriptor (node : option Node) (msg : Value) : Issue :=
  mkIssue None None None node msg None FixAbsent None.

(** The same with [fix: function (fixer) { ... }] replacing the first
    character of the source. *)
Definition descriptor_with_fix (node : option Node) (msg : Value) : Issue :=
  mkIssue None None None node msg None
          (FixFn (fun _ => [mkEdit 0 1 "X"])) None.

(** The context of an enabled rule named [foo]. *)
Definition foo_context : RuleContext :=
  mkContext "foo" (VObj [("enabled", VBool true); ("type", VStr "error")]) plain_meta.

(** A registry of six rules: [deprecated-rule] subscribes to nothing;
    [misplaced] reports the program at a location of its own choosing;
    [probe-parent] reports, on entering and on leaving a contract, what it
    finds in [node.parent]; [no-node] reports without a node;
    [unfixable-fix] and [fixer] report the program with a fix, the first
    without [fixable] in its meta, the second with it.  Any other name
    resolves to no module. *)
Definition misplaced_listener : Listener :=
  fun emitted =>
    if e_exit emitted then []
    else [ArgIssue (mkIssue None None None (Some (e_node emitted)) (VStr "Avoid this.")
                            (Some (mkLocation (Some (-2)) (Some 0))) FixAbsent None)].

Definition probe_listener : Listener :=
  fun emitted =>
    [ArgIssue (descriptor (Some (e_node emitted))
       (VStr ((if e_exit emitted then "leave: " else "enter: ") +:+
              match nparent (e_node emitted) with
              | Some (Some p) => "parent is " +:+ ntype p
              | Some None => "parent is null"
              | None => "no parent"
              end)))].

Definition no_node_listener : Listener :=
  fun emitted => if e_exit emitted then [] else [ArgIssue (descriptor None (VStr "Avoid this."))].

Definition fix_listener : Listener :=
  fun emitted =>
    if e_exit emitted then []
    else [ArgIssue (descriptor_with_fix (Some (e_node emitted)) (VStr "Avoid this."))].

Definition registry : RuleRegistry :=
  {| rules_load := fun cur => Ok (match get_field "rules" cur with
                                  | VObj fields => fields
                                  | _ => []
                                  end);
     rules_loadUsingDeprecatedConfigFormat := fun rules crf =>
       Ok (match rules with
           | VObj fields =>
               map (fun kv => (kv.1, VObj [("enabled", VBool true); ("type", VStr "error")]))
                   fields
           | _ => []
           end);
     rules_get := fun name =>
       if String.eqb name "deprecated-rule" then
         Some (mkRule deprecated_meta (fun _ => Ok []))
       else if String.eqb name "misplaced" then
         Some (mkRule plain_meta (fun _ => Ok [("Program", misplaced_listener)]))
       else if String.eqb name "probe-parent" then
         Some (mkRule plain_meta (fun _ => Ok [("ContractStatement", probe_listener)]))
       else if String.eqb name "no-node" then
         Some (mkRule plain_meta (fun _ => Ok [("Program", no_node_listener)]))
       else if String.eqb name "unfixable-fix" then
         Some (mkRule plain_meta (fun _ => Ok [("Program", fix_listener)]))
       else if String.eqb name "fixer" then
         Some (mkRule fixable_meta (fun _ => Ok [("Program", fix_listener)]))
       else None |}.

Definition ruleInspector : RuleInspector :=
  {| isAValidRuleObject := fun rule => match rule with Some _ => true | None => false end;
     areValidOptionsPassed := fun options schema =>
       match options with
       | VArr items => Nat.eqb (length items) (length schema)
       | _ => false
       end |}.

(** The deprecated format is the one with [custom-rules-filename]. *)
Definition configInspector : ConfigInspector :=
  {| isFormatDeprecated := fun cur =>
       match cur with
       | VObj fields => bool_decide ("custom-rules-filename" ∈ map fst fields)
       | _ => false
       end |}.

(** Every text parses to [program], except ["!"]. *)
Definition parser : Parser :=
  {| parse := fun text => if String.eqb text "!" then inl "SyntaxError: unexpected !"
                          else inr program |}.

Definition enabled : Value := VObj [("enabled", VBool true); ("type", VStr "error")].

(** [{ rules: { name: { enabled: true, type: 'error' }, ... },
       options: { returnInternalIssues: true } }] *)
Definition config_of (names : list string) : Value :=
  VObj [("rules", VObj (map (fun name => (name, enabled)) names));
        ("options", VObj [("returnInternalIssues", VBool true)])].

(** The state of a fresh module, the caller holding [config] at cell 1. *)
Definition world_of (config : Value) : World :=
  initial_world {[ 1%positive := config ]}.

Definition run_lint (sourceCode : string) (config : loc) (noReset : bool) : M (list Message) :=
  lint (H := astUtils) (H0 := registry) (H1 := ruleInspector) (H2 := configInspector)
       (H3 := parser) (SrcValue (VStr sourceCode)) config noReset.

Definition run_lintAndFix (sourceCode : string) (config : loc) (noReset : bool)
  : M LintAndFix :=
  lintAndFix (H := astUtils) (H0 := registry) (H1 := ruleInspector)
             (H2 := configInspector) (H3 := parser)
             (SrcValue (VStr sourceCode)) config noReset.

(** What a computation returned, if it did. *)
Definition returned {A} (run : result (list A) * World) : list A :=
  match run.1 with
  | Ok xs => xs
  | Throw _ => []
  end.


(** Two configurations held by the caller: cell 1 enables a deprecated
    rule, cell 2 enables no rule; both ask for the internal issues. *)
Definition two_configs : World :=
  initial_world {[ 1%positive := config_of ["deprecated-rule"];
                   2%positive := config_of [] ]}.

(** A first call, on a text that does not parse. *)
Definition first_call : result (list Message) * World :=
  run_lint "!" 1 false two_configs.

(** The walk over [program] in a session where [probe-parent] listens. *)
Definition probed_walk : result Node * World :=
  traverse (H := astUtils) program None
           (with_listeners [context_on foo_context ("ContractStatement", probe_listener)]
                           (initial_world ∅)).


(** A diagnostic of [rule] at line [l] carrying [edits]. *)
Definition fix_diagnostic (rule : string) (l : Z) (edits : list Edit) : Message :=
  mkMessage (Some rule) (Some "warning") (Some program) (VStr "Fix this.") l 0
            (Some edits) false.

(** One fix wraps the offsets 0 to 12 in brackets, another replaces
    offset 5. *)
Definition wrap : Message :=
  fix_diagnostic "wrap" 1 [mkEdit 0 2 "(("; mkEdit 10 12 "))"].


End Sample.


(** ** More of the module *)

(** [Solium.getSourceCode]: the source text held by the session, which the
    code wraps in a [SourceCode] object. *)
Definition getSourceCode : M string := gets sourceCodeText.


(** The type tags of the nodes of a tree. *)
Fixpoint node_types (node : Node) : list string :=
  ntype node :: concat (map node_types (nchildren node)).

(** The diagnostics of rules, as opposed to the internal ones. *)
Definition rule_diagnostics (ms : list Message) : list Message :=
  filter (fun m => internal m = false) ms.

(** [config.options.returnInternalIssues], as [lint] reads it off its
    copy. *)
Definition returnInternalIssues (cur : Value) : bool :=
  truthy (get_field "returnInternalIssues" (get_field "options" cur)).

(** [currentConfig] is a cell whose [options] attribute is [opts]. *)
Definition options_are (opts : Value) (w : World) : Prop :=
  exists v, config_is v w /\ get_field "options" v = opts.

(** The value of [currentConfig], as [current] reads it. *)
Definition current_value (w : World) : Value :=
  match currentConfig w with
  | Some l => default VUndefined (heap w !! l)
  | None => VNull
  end.

(** Further sample inputs. *)
Module More.

(** [{ rules: { name: { enabled: true, type: 'error' }, ... } }], without
    options. *)
Definition quiet_config (names : list string) : Value :=
  VObj [("rules", VObj (map (fun name => (name, Sample.enabled)) names))].

(** A call with a deprecated rule and a rule that reports twice, the
    internal issues not being asked for. *)
Definition quiet_run : result (list Message) * World :=
  Sample.run_lint "contract A {}" 1 false
    (Sample.world_of (quiet_config ["deprecated-rule"; "probe-parent"])).

(** A session in which one listener waits for contracts. *)
Definition contract_listener : World :=
  with_listeners
    [context_on Sample.foo_context ("ContractStatement", Sample.probe_listener)]
    (initial_world ∅).

(** An issue that gives its line as 0 and its column as 7. *)
Definition located_issue : Issue :=
  mkIssue None (Some "foo") (Some "error") (Some Sample.program)
          (VStr "Avoid this.") (Some (mkLocation (Some 0) (Some 7)))
          FixAbsent None.

(** A tree without contract. *)
Definition statements : Node :=
  mkNode "Program" 1 0 [] None
         [Sample.leaf "ExpressionStatement" 1 0; Sample.leaf "ExpressionStatement" 2 0].

End More.

(** ** The earlier revision of the module

    [lib/solium.js] as it was before rules had a meta: [lint] checks the
    configuration inline, loads the rules from the caller's object, and
    wraps whatever a rule's [verify] throws; [report] knows no fix. *)

Definition nl : string := String (Ascii.ascii_of_nat 10) "".

(** ['' + e] for an [Error] whose message is [e]. *)
Definition error_text (e : string) : string := "Error: " +:+ e.

(** What [new RuleContext (name, ruleConfig, Solium)] binds. *)
Record RuleContext0 := mkContext0 {
  ctx0_name : string;
  ctx0_config : Value
}.

(** A rule module of that revision, [{ verify: function (context) ... }]. *)
Record RuleModule0 := mkRule0 {
  verify0 : RuleContext0 -> result (list (string * Listener))
}.

(** [./rules] of that revision: [load (rules, customRulesFilename)]. *)
Class RuleRegistry0 := {
  rules0_load : Value -> Value -> result (list (string * Value));
  rules0_get : string -> option RuleModule0
}.

(** Modelled from the spec: the context's [report] (section 4.4) resolves
    the rule's name and severity and forwards the descriptor. *)
Definition context0_assign (ctx : RuleContext0) (descriptor : ReportArg) : ReportArg :=
  match descriptor with
  | ArgIssue i =>
      ArgIssue (mkIssue (i_ruleId i) (Some (ctx0_name ctx))
                        (match get_field "type" (ctx0_config ctx) with
                         | VStr s => Some s
                         | _ => None
                         end)
                        (i_node i) (i_message i) (i_location i) (i_fix i)
                        (i_ruleMeta i))
  | other => other
  end.

Definition context0_on (ctx : RuleContext0) (sub : string * Listener) : string * Listener :=
  (fst sub, fun emitted => map (context0_assign ctx) (snd sub emitted)).

Section Revision0.
Context `{AstUtils} `{RuleRegistry0} `{Parser}.

Definition report0 (error : ReportArg) : M unit :=
  match error with
  | ArgOther _ => throw "Invalid error object"
  | ArgIssue error =>
      if negb (isASTNode (i_node error)) then
        throw ("Rule " +:+ js_str (i_ruleId error) +:+ " does not provide a valid AST node")
      else if negb (is_description (i_message error)) then
        throw ("Rule " +:+ js_str (i_ruleId error) +:+
               " flags a node but doesn't provide an error description")
      else
        let location := default (mkLocation None None) (i_location error) in
        let! text := gets astText in
        push {| ruleName := i_ruleName error;
                m_type := i_type error;
                m_node := i_node error;
                message := i_message error;
                line := match loc_line location with
                        | Some l => if Z.eqb l 0 then getLine text (i_node error) else l
                        | None => getLine text (i_node error)
                        end;
                column := match loc_column location with
                          | Some c => if Z.eqb c 0 then getColumn text (i_node error) else c
                          | None => getColumn text (i_node error)
                          end;
                m_fix := None; internal := false |}
  end.

Definition emit0 (type : string) (emitted : Emitted) : M unit :=
  let! ls := gets listeners in
  forEach (fun l : string * Listener =>
             if String.eqb (fst l) type then forEach report0 (snd l emitted)
             else ret tt) ls.

Definition visitor_enter0 (node : Node) (parent : option Node) : M Node :=
  let node := set_parent node parent in   (* node.parent = parent *)
  let! _ := emit0 (ntype node) (mkEmitted node false) in
  ret (delete_parent node).               (* delete node.parent *)

Definition visitor_leave0 (node : Node) : M Node :=
  let! _ := emit0 (ntype node) (mkEmitted node true) in
  ret node.

Fixpoint traverse0 (node : Node) (parent : option Node) : M Node :=
  let! entered := visitor_enter0 node parent in
  let! kids :=
    (fix walk (cs : list Node) : M (list Node) :=
       match cs with
       | [] => ret []
       | c :: rest =>
           let! c' := traverse0 c (Some entered) in
           let! rest' := walk rest in
           ret (c' :: rest')
       end) (nchildren node) in
  visitor_leave0 (set_children entered kids).

(** The body of [Object.keys (currentConfig.rules).forEach]: whatever
    goes wrong with the rule is thrown again under the rule's name. *)
Definition load_rule0 (rules : Value) (name : string) : M unit :=
  let wrap := fun description =>
    "A valid definition for rule '" +:+ name +:+ "' not found. Description:" +:+
    nl +:+ description in
  match rules0_get name with
  | None => throw (wrap "TypeError: Cannot read property 'verify' of undefined")
  | Some rule =>
      let ctx := mkContext0 name (get_field name rules) in
      match verify0 rule ctx with
      | Ok subs =>
          modify (fun w => with_listeners (listeners w ++ map (context0_on ctx) subs) w)
      | Throw e => throw (wrap (error_text e))
      end
  end.

Definition lint0 (sourceCode : SourceArg) (config : loc) (noReset : bool)
  : M (list Message) :=
  let! sourceCode := lift (decode_buffer sourceCode) in
  match sourceCode with
  | SrcValue (VStr text) =>
      if String.eqb text "" then throw "A valid source code string was not passed."
      else
        let! original := deref config in
        if negb (isValid original) then
          throw ("A valid configuration object was not passed. " +:+
                 "Please check the documentation.")
        else
          let! _ := if negb noReset then reset else ret tt in
          let! _ := modify (with_sourceCodeText text) in
          let! _ := modify (with_astText text) in
          let! copy := alloc (json_copy original) in          (* deep copy config object *)
          let! _ := modify (with_currentConfig (Some copy)) in
          let! loaded := lift (rules0_load (get_field "rules" original)
                                           (get_field "custom-rules-filename" original)) in
          let! _ := current_set "rules" (VObj loaded) in
          let! _ := forEach (load_rule0 (VObj loaded)) (map fst loaded) in
          match parse text with
          | inl e =>
              throw ("An error occured while parsing the source code:" +:+ nl +:+
                     error_text e)
          | inr AST =>
              let! _ := traverse0 AST None in
              (* sort errors by line (column if line is same) *)
              let! _ := modify (fun w => with_messages
                                           (array_sort compareMessages (messages w)) w) in
              let! errorObjects := gets messages in
              let! _ := modify (with_messages []) in
              ret errorObjects
          end
  | _ => throw "A valid source code string was not passed."
  end.

End Revision0.

Section Revision0Checks.
Context `{RuleRegistry0}.

(** The rule [name] is known and its [verify] returns. *)
Definition rule_passes0 (rules : Value) (name : string) : bool :=
  match rules0_get name with
  | Some rule =>
      match verify0 rule (mkContext0 name (get_field name rules)) with
      | Ok _ => true
      | Throw _ => false
      end
  | None => false
  end.

(** What went wrong with a rule that does not pass. *)
Definition rule_failure0 (rules : Value) (name : string) : string :=
  match rules0_get name with
  | Some rule =>
      match verify0 rule (mkContext0 name (get_field name rules)) with
      | Ok _ => ""
      | Throw e => error_text e
      end
  | None => "TypeError: Cannot read property 'verify' of undefined"
  end.

End Revision0Checks.

(** ** Regular expressions of the rules

    The patterns the rules test names against are anchored sequences of
    quantified character classes.  [test] decides whether the whole text
    is such a sequence; the order in which a backtracking matcher tries
    the alternatives has no bearing on the answer. *)

Definition char_between (lo hi : nat) (c : Ascii.ascii) : bool :=
  Nat.leb lo (Ascii.nat_of_ascii c) && Nat.leb (Ascii.nat_of_ascii c) hi.

(** [[A-Z]], [[a-z]], [[a-zA-Z]] and [_] *)
Definition upper : Ascii.ascii -> bool := char_between 65 90.
Definition lower : Ascii.ascii -> bool := char_between 97 122.
Definition letter (c : Ascii.ascii) : bool := lower c || upper c.
Definition underscore : Ascii.ascii -> bool := char_between 95 95.

Inductive Quantifier : Type := One | Optional | Plus | Star.

Definition Pattern : Type := list ((Ascii.ascii -> bool) * Quantifier).

(** [cls*] followed by what [k] accepts. *)
Fixpoint star (cls : Ascii.ascii -> bool) (k : string -> bool) (s : string) : bool :=
  k s ||
  match s with
  | String c rest => cls c && star cls k rest
  | EmptyString => false
  end.

Fixpoint matcher (p : Pattern) (k : string -> bool) : string -> bool :=
  match p with
  | [] => k
  | (cls, One) :: rest =>
      fun s => match s with
               | String c s' => cls c && matcher rest k s'
               | EmptyString => false
               end
  | (cls, Optional) :: rest =>
      fun s => match s with
               | String c s' => cls c && matcher rest k s'
               | EmptyString => false
               end || matcher rest k s
  | (cls, Plus) :: rest =>
      fun s => match s with
               | String c s' => cls c && star cls (matcher rest k) s'
               | EmptyString => false
               end
  | (cls, Star) :: rest => star cls (matcher rest k)
  end.

(** [/^p$/.test (s)] *)
Definition test (p : Pattern) (s : string) : bool :=
  matcher p (fun rest => String.eqb rest "") s.

(** Every character of [s] is of the class. *)
Fixpoint all_chars (cls : Ascii.ascii -> bool) (s : string) : bool :=
  match s with
  | String c rest => cls c && all_chars cls rest
  | EmptyString => true
  end.

(** ** The rule [camelcase] ([lib/rules/camelcase.js]) *)

(** [/^[A-Z][a-z]+[a-zA-Z]*[a-z]$/] *)
Definition camelCaseRegEx : Pattern :=
  [(upper, One); (lower, Plus); (letter, Star); (lower, One)].

Definition eventsToWatch : list (string * string) :=
  [("ContractStatement", "Contract"); ("LibraryStatement", "Library");
   ("StructDeclaration", "Struct"); ("EventDeclaration", "Event")].

(** [node.name], and the text it reads as. *)
Definition node_name (node : Node) : Value := assoc_get "name" (nprops node).

(** The handler [camelcase] subscribes for a node type whose kind of
    declaration is called [kind]. *)
Definition camelcase_listener (kind : string) : Listener :=
  fun emitted =>
    let node := e_node emitted in
    if e_exit emitted then []
    else if negb (test camelCaseRegEx (js_text (node_name node))) then
      [ArgIssue (mkIssue None None None (Some node)
                   (VStr (kind +:+ " name '" +:+ js_text (node_name node) +:+
                          "' doesn't follow the CamelCase notation"))
                   None FixAbsent None)]
    else [].

Definition camelcase : RuleModule0 :=
  mkRule0 (fun context =>
             Ok (map (fun event => (event.1, camelcase_listener event.2)) eventsToWatch)).

(** The names [camelcase] lets pass: a capital, a small letter, letters,
    a small letter. *)
Definition CamelCase (s : string) : Prop :=
  exists u l middle z,
    s = String u (String l (middle +:+ String z ""))
    /\ upper u = true /\ lower l = true
    /\ all_chars letter middle = true /\ lower z = true.

(** ** The rule [mixedcase] ([src/unnamed/part_001]) *)

(** A handler as the rule wrote it: the objects it passes to
    [context.report], or the error it runs into. *)
Definition Handler : Type := Emitted -> result (list ReportArg).

Definition result_bind {A B} (r : result A) (k : A -> result B) : result B :=
  match r with
  | Ok a => k a
  | Throw e => Throw e
  end.

(** [o.k]: reading a property of [null] or [undefined] throws. *)
Definition get_prop (k : string) (o : Value) : result Value :=
  if nullish o then
    Throw ("TypeError: Cannot read property '" +:+ k +:+ "' of " +:+ js_text o)
  else Ok (get_field k o).

(** [a === b] on values that are no objects; two objects are the same
    only by identity, which a name never is. *)
Definition strict_equal (a b : Value) : bool :=
  match a, b with
  | VUndefined, VUndefined => true
  | VNull, VNull => true
  | VBool x, VBool y => Bool.eqb x y
  | VNum x, VNum y => Z.eqb x y
  | VStr x, VStr y => String.eqb x y
  | _, _ => false
  end.

(** [/^_?[a-z]+[a-zA-Z]*$/] *)
Definition mixedCaseRegEx : Pattern :=
  [(underscore, Optional); (lower, Plus); (letter, Star)].

(** [context.report ({ node: node, message: message })] *)
Definition reported (node : Node) (message : string) : ReportArg :=
  ArgIssue (mkIssue None None None (Some node) (VStr message) None FixAbsent None).

Definition mixedcase_message (name : Value) : string :=
  "'" +:+ js_text name +:+ "' doesn't follow the mixedCase notation".

(** [node.parent], a node; reading a property of it throws when the node
    has no parent. *)
Definition parent_node (node : Node) : result Node :=
  match nparent node with
  | Some (Some p) => Ok p
  | Some None => Throw "TypeError: Cannot read property 'type' of null"
  | None => Throw "TypeError: Cannot read property 'type' of undefined"
  end.

(** The handler of [FunctionDeclaration], [ModifierDeclaration] and
    [ModifierName]: a constructor (function with name same as its parent
    contract/library) is exception to mixedCase Rule. *)
Definition similar_handler : Handler :=
  fun emitted =>
    let node := e_node emitted in
    if e_exit emitted then Ok []
    else
      result_bind
        (if String.eqb (ntype node) "FunctionDeclaration" then
           result_bind (parent_node node) (fun parent =>
             Ok ((String.eqb (ntype parent) "ContractStatement" ||
                  String.eqb (ntype parent) "LibraryStatement") &&
                 strict_equal (node_name parent) (node_name node)))
         else Ok false)
        (fun is_constructor =>
           if is_constructor then Ok []
           else if negb (test mixedCaseRegEx (js_text (node_name node))) then
             Ok [reported node (mixedcase_message (node_name node))]
           else Ok []).





(** The names [mixedcase] lets pass: an optional underscore, a small
    letter, letters. *)
Definition MixedCase (s : string) : Prop :=
  exists l rest,
    (s = String l rest \/ s = String (Ascii.ascii_of_nat 95) (String l rest))
    /\ lower l = true /\ all_chars letter rest = true.

(** A function declared in a contract or library of the same name. *)
Definition is_constructor (node : Node) : bool :=
  String.eqb (ntype node) "FunctionDeclaration" &&
  match nparent node with
  | Some (Some parent) =>
      (String.eqb (ntype parent) "ContractStatement" ||
       String.eqb (ntype parent) "LibraryStatement") &&
      strict_equal (node_name parent) (node_name node)
  | _ => false
  end.

(** ** Sample inputs of the earlier revision and of the naming rules *)

Module Earlier.

(** A registry that knows [camelcase] and a rule whose [verify] throws;
    [load] hands back the entries of the configuration as they are. *)
#[local] Instance registry : RuleRegistry0 := {
  rules0_load := fun rules _ =>
    match rules with
    | VObj entries => Ok entries
    | _ => Throw "rules is not an object"
    end;
  rules0_get := fun name =>
    if String.eqb name "camelcase" then Some camelcase
    else if String.eqb name "broken" then Some (mkRule0 (fun _ => Throw "not ready"))
    else None
}.

(** [camelcase] sets up, [no-such-rule] is unknown, [broken] is not reached. *)
Definition config : Value := More.quiet_config ["camelcase"; "no-such-rule"; "broken"].

(** [function Token () {}] in [contract Token], entered. *)
Definition constructor_entered : Emitted :=
  mkEmitted
    (mkNode "FunctionDeclaration" 2 2 [("name", VStr "Token")]
            (Some (Some (mkNode "ContractStatement" 1 0 [("name", VStr "Token")] None [])))
            [])
    false.

(** [function Token () {}] entered with no parent set. *)
Definition detached_function : Emitted :=
  mkEmitted (mkNode "FunctionDeclaration" 2 2 [("name", VStr "Token")] None []) false.

End Earlier.

(** ** The command line tool ([lib/cli.js])

    The configuration objects the tool hands to [writeConfigFile]: what
    [--sync] makes of the user's rules and what [--init] creates. *)

Section Cli.

(** [require ('../config/solium.json').rules], an object: its entries in
    the order [Object.keys] enumerates them. *)
Variable soliumRules : list (string * Value).

(** [rulenames.filter (function (rulename) { return soliumRules [rulename].enabled; })]:
    reading [enabled] of an entry that is [null] throws. *)
Fixpoint filter_enabled (rulenames : list string) : result (list string) :=
  match rulenames with
  | [] => Ok []
  | rulename :: rest =>
      result_bind (get_prop "enabled" (assoc_get rulename soliumRules)) (fun enabled =>
        result_bind (filter_enabled rest) (fun kept =>
          Ok (if truthy enabled then rulename :: kept else kept)))
  end.

(** [Object.keys (soliumRules).filter (...)] *)
Definition enabledRules : result (list string) :=
  filter_enabled (map fst soliumRules).

(** [rules.hasOwnProperty (rulename)] on an object with the entries
    [rules]. *)
Definition hasOwnProperty (rulename : string) (rules : list (string * Value)) : bool :=
  existsb (fun entry => String.eqb rulename (fst entry)) rules.

(** The body of the [forEach] of [synchronizeWithSoliumRules]: only
    insert those rules that don't already exist. *)
Definition insert_missing (rules : list (string * Value)) (rulename : string)
  : list (string * Value) :=
  if negb (hasOwnProperty rulename rules) then assoc_set rulename (VBool true) rules
  else rules.

(** [synchronizeWithSoliumRules (userConfig)], where [userConfig.rules]
    is an object with the entries [rules]: the entries it has when the
    function hands [userConfig] to [writeConfigFile]. *)
Definition synchronizeWithSoliumRules (rules : list (string * Value))
  : result (list (string * Value)) :=
  result_bind enabledRules (fun rulenames => Ok (fold_left insert_missing rulenames rules)).

(** [createDefaultConfigJSON ()]: the object it hands to
    [writeConfigFile]. *)
Definition createDefaultConfigJSON : result Value :=
  result_bind enabledRules (fun rulenames =>
    Ok (VObj [("custom-rules-filename", VNull);
              ("rules", VObj (fold_left (fun rules rulename =>
                                           assoc_set rulename (VBool true) rules)
                                        rulenames []))])).

(** [createDefaultConfigJSON ()] of the earlier revision
    ([src/unnamed/part_003]): every rule of [soliumRules] is written. *)
Definition createDefaultConfigJSON0 : Value :=
  VObj [("custom-rules-filename", VNull);
        ("rules", VObj (fold_left (fun rules rulename =>
                                     assoc_set rulename (VBool true) rules)
                                  (map fst soliumRules) []))].

End Cli.

(** The rules of [soliumRules] that [--init] and [--sync] enable. *)
Definition enabled_in (soliumRules : list (string * Value)) (rulename : string) : Prop :=
  rulename ∈ map fst soliumRules
  /\ truthy (get_field "enabled" (assoc_get rulename soliumRules)) = true.

Module Shipped.

(** A [config/solium.json] with two rules on and one off, and a user who
    has switched one of them off. *)
Definition soliumRules : list (string * Value) :=
  [("camelcase", VObj [("enabled", VBool true)]);
   ("lbrace", VObj [("enabled", VBool false)]);
   ("mixedcase", VObj [("enabled", VBool true)])].

Definition userRules : list (string * Value) :=
  [("mixedcase", VBool false); ("my-rule", VBool true)].

(** The user's rules after [--sync]. *)
Definition synchronized : list (string * Value) :=
  [("mixedcase", VBool false); ("my-rule", VBool true); ("camelcase", VBool true)].

End Shipped.

(** ** The events of a walk

    What the walk of [lint] announces for a tree, in order: a node on
    entering it, its [parent] attached; the node on leaving it, the
    property removed from it and from the nodes below. *)

Fixpoint events (node : Node) (parent : option Node) : list Emitted :=
  mkEmitted (set_parent node parent) false
  :: flat_map (fun c => events c (Some (delete_parent node))) (nchildren node)
  ++ [mkEmitted (strip_parent node) true].

(** ** The rule [value-in-payable] ([lib/rules/value-in-payable.js]) *)

(** [a == "value"]: a number or a boolean is compared as a number, and
    ["value"] is none; an object is compared by its text. *)
Definition equals_value (a : Value) : bool :=
  match a with
  | VStr s => String.eqb s "value"
  | VArr _ | VObj _ => String.eqb (js_text a) "value"
  | _ => false
  end.

(** [node.object.name === "msg" && node.property.name == "value"] *)
Definition isMsgValueAccess (node : Node) : result bool :=
  result_bind (get_prop "name" (assoc_get "object" (nprops node))) (fun object_name =>
    if strict_equal object_name (VStr "msg") then
      result_bind (get_prop "name" (assoc_get "property" (nprops node)))
                  (fun property_name => Ok (equals_value property_name))
    else Ok false).

(** The values [modifiers[i]] takes in [for (let i in modifiers)]. *)
Definition enumerated (modifiers : Value) : list Value :=
  match modifiers with
  | VArr items => items
  | VObj fields => map snd fields
  | VStr s => map (fun c => VStr (String c "")) (String.list_ascii_of_string s)
  | _ => []
  end.

(** The loop of [_isInPayableFunction]. *)
Fixpoint any_payable (modifiers : list Value) : result bool :=
  match modifiers with
  | [] => Ok false
  | modifier :: rest =>
      result_bind (get_prop "name" modifier) (fun name =>
        if strict_equal name (VStr "payable") then Ok true else any_payable rest)
  end.

Definition isInPayableFunction (currentFunctionDeclaration : Node) : result bool :=
  any_payable (enumerated (assoc_get "modifiers" (nprops currentFunctionDeclaration))).

(** A handler of the rule: what it reports or throws, and the value it
    leaves in [currentFunctionDeclaration] ([None] for [null]). *)
Definition Inspector : Type :=
  Emitted -> option Node -> result (list ReportArg) * option Node.

Definition inspectFunctionDeclaration : Inspector :=
  fun emitted currentFunctionDeclaration =>
    if e_exit emitted then (Ok [], None)
    else (Ok [], Some (e_node emitted)).

Definition inspectMemberExpression : Inspector :=
  fun emitted currentFunctionDeclaration =>
    if e_exit emitted then (Ok [], currentFunctionDeclaration)
    else
      let node := e_node emitted in
      (result_bind (isMsgValueAccess node) (fun access =>
         if access then
           match currentFunctionDeclaration with       (* _isInFunction () *)
           | Some declaration =>
               result_bind (isInPayableFunction declaration) (fun payable =>
                 if negb payable then
                   Ok [reported node
                         "'msg.value' should only be used in a payable function"]
                 else Ok [])
           | None => Ok []
           end
         else Ok []),
       currentFunctionDeclaration).

(** The object [create] returns. *)
Definition value_in_payable (type : string) : option Inspector :=
  if String.eqb type "FunctionDeclaration" then Some inspectFunctionDeclaration
  else if String.eqb type "MemberExpression" then Some inspectMemberExpression
  else None.

(** The rule's handlers called for a sequence of events; an error a
    handler throws ends the walk. *)
Fixpoint inspect (es : list Emitted) (currentFunctionDeclaration : option Node)
  : result (list ReportArg) * option Node :=
  match es with
  | [] => (Ok [], currentFunctionDeclaration)
  | emitted :: rest =>
      match value_in_payable (ntype (e_node emitted)) with
      | Some inspector =>
          match inspector emitted currentFunctionDeclaration with
          | (Ok reports, current) =>
              match inspect rest current with
              | (Ok more, final) => (Ok (reports ++ more), final)
              | thrown => thrown
              end
          | thrown => thrown
          end
      | None => inspect rest currentFunctionDeclaration
      end
  end.

(** A member expression that reads [msg.value]. *)
Definition is_msg_value (node : Node) : bool :=
  String.eqb (ntype node) "MemberExpression" &&
  strict_equal (get_field "name" (assoc_get "object" (nprops node))) (VStr "msg") &&
  equals_value (get_field "name" (assoc_get "property" (nprops node))).

(** A declaration one of whose modifiers is named [payable]. *)
Definition payable (declaration : Node) : bool :=
  existsb (fun modifier => strict_equal (get_field "name" modifier) (VStr "payable"))
          (enumerated (assoc_get "modifiers" (nprops declaration))).

(** The nodes of a tree that read [msg.value], as the walk presents
    them, in the order of the text. *)
Fixpoint accesses (node : Node) (parent : option Node) : list Node :=
  (if is_msg_value node then [set_parent node parent] else [])
  ++ flat_map (fun c => accesses c (Some (delete_parent node))) (nchildren node).

(** Those of them that stand in a function that is not payable. *)
Fixpoint offenders (node : Node) (parent : option Node) : list Node :=
  if String.eqb (ntype node) "FunctionDeclaration" then
    if payable node then []
    else flat_map (fun c => accesses c (Some (delete_parent node))) (nchildren node)
  else flat_map (fun c => offenders c (Some (delete_parent node))) (nchildren node).

(** The properties the rule reads are there: a member expression has an
    [object], and a [property] if the object is [msg]; no modifier of a
    function is [null]. *)
Definition readable (node : Node) : bool :=
  (if String.eqb (ntype node) "MemberExpression" then
     negb (nullish (assoc_get "object" (nprops node))) &&
     (negb (strict_equal (get_field "name" (assoc_get "object" (nprops node)))
                         (VStr "msg"))
      || negb (nullish (assoc_get "property" (nprops node))))
   else true) &&
  (if String.eqb (ntype node) "FunctionDeclaration" then
     forallb (fun modifier => negb (nullish modifier))
             (enumerated (assoc_get "modifiers" (nprops node)))
   else true).

Fixpoint all_nodes (holds : Node -> bool) (node : Node) : bool :=
  holds node && forallb (all_nodes holds) (nchildren node).

Definition is_function (node : Node) : bool :=
  String.eqb (ntype node) "FunctionDeclaration".

(** No function is declared within a function. *)
Fixpoint no_nested_function (node : Node) : bool :=
  if is_function node then
    forallb (all_nodes (fun n => negb (is_function n))) (nchildren node)
  else forallb no_nested_function (nchildren node).

Module Payable.

(** [msg.value] at the given place. *)
Definition msg_value (l c : Z) : Node :=
  mkNode "MemberExpression" l c
         [("object", VObj [("type", VStr "Identifier"); ("name", VStr "msg")]);
          ("property", VObj [("type", VStr "Identifier"); ("name", VStr "value")])]
         None [].

Definition function (name : string) (modifiers : Value) (l : Z) (body : list Node) : Node :=
  mkNode "FunctionDeclaration" l 0 [("name", VStr name); ("modifiers", modifiers)] None body.

(** A contract with a modifier that reads [msg.value], a payable
    function that does, and a function without modifiers that does so
    twice. *)
Definition contract : Node :=
  mkNode "ContractStatement" 1 0 [("name", VStr "Bank")] None
         [mkNode "ModifierDeclaration" 2 0 [("name", VStr "paid")] None [msg_value 2 20];
          function "deposit" (VArr [VObj [("name", VStr "payable")]]) 3 [msg_value 3 30];
          function "peek" VNull 4 [msg_value 4 10; Sample.leaf "ExpressionStatement" 4 20;
                                   msg_value 4 30]].

(** A function declared within a function, and a read of [msg.value]
    after it. *)
Definition nested : Node :=
  function "outer" VNull 1 [function "inner" VNull 2 []; msg_value 3 0].

End Payable.
(** ** The monad *)

Lemma bind_ok {A B} (c : M A) (k : A -> M B) w a w' :
  c w = (Ok a, w') -> bind c k w = k a w'.
Proof. intros Hc. unfold bind. by rewrite Hc. Qed.

Lemma bind_throw {A B} (c : M A) (k : A -> M B) w e w' :
  c w = (Throw e, w') -> bind c k w = (Throw e, w').
Proof. intros Hc. unfold bind. by rewrite Hc. Qed.

Lemma bind_inv_ok {A B} (c : M A) (k : A -> M B) w b w2 :
  bind c k w = (Ok b, w2) ->
  exists a w1, c w = (Ok a, w1) /\ k a w1 = (Ok b, w2).
Proof.
  unfold bind. destruct (c w) as [[a|e] w1]; [eauto | discriminate].
Qed.

(** ** [report] and [reportInternal] *)

Section ReportFacts.
Context `{AstUtils}.

Lemma reportInternal_object (issue : Issue) (w : World) :
  reportInternal (ArgIssue issue) w
  = (Ok tt, with_messages (messages w ++ [assign_internal issue]) w).
Proof. reflexivity. Qed.

(** A malformed issue makes [report] throw and leaves the session,
    the buffer included, as it was. *)
Lemma report_malformed_throws (issue : Issue) (w : World) :
  isASTNode (i_node issue) = false \/ is_description (i_message issue) = false ->
  exists e, report (ArgIssue issue) w = (Throw e, w).
Proof.
  intros Hbad. unfold report.
  destruct (isASTNode (i_node issue)); simpl; [| by eexists].
  destruct Hbad as [? | ->]; [done | by eexists].
Qed.

End ReportFacts.

(** ** [Array.prototype.sort] *)

Section ArraySortFacts.
Context {A : Type} (compareFn : A -> A -> Z).

Local Abbreviation before := (before compareFn).

Lemma sort_insert_perm (x : A) (l : list A) :
  sort_insert compareFn x l ≡ₚ x :: l.
Proof.
  induction l as [|y l IH]; simpl; [done |].
  destruct (Z.leb (compareFn x y) 0); [done |].
  rewrite IH. apply Permutation_swap.
Qed.

Lemma array_sort_perm (l : list A) : array_sort compareFn l ≡ₚ l.
Proof.
  induction l as [|x l IH]; simpl; [done |].
  by rewrite sort_insert_perm, IH.
Qed.

Lemma array_sort_elem_of (x : A) (l : list A) :
  x ∈ array_sort compareFn l <-> x ∈ l.
Proof. by rewrite array_sort_perm. Qed.

(** The comparator is consistent: any two elements are comparable and the
    order it induces is transitive. *)
Hypothesis before_total : forall a b, before a b \/ before b a.
Hypothesis before_trans : forall a b c, before a b -> before b c -> before a c.

Lemma sort_insert_sorted (x : A) (l : list A) :
  StronglySorted before l -> StronglySorted before (sort_insert compareFn x l).
Proof.
  induction 1 as [|y l Hl IH Hy]; simpl.
  - repeat constructor.
  - destruct (Z.leb (compareFn x y) 0) eqn:Hxy.
    + apply Z.leb_le in Hxy. constructor; [by constructor |].
      constructor; [done |].
      eapply Forall_impl; [exact Hy |]. intros z Hz. by eapply before_trans.
    + apply Z.leb_gt in Hxy.
      assert (before y x) as Hyx.
      { destruct (before_total x y) as [Hb | Hb]; [unfold before in Hb; lia | done]. }
      constructor; [done |].
      rewrite sort_insert_perm. by constructor.
Qed.

Lemma array_sort_sorted (l : list A) :
  StronglySorted before (array_sort compareFn l).
Proof.
  induction l as [|x l IH]; simpl; [constructor | by apply sort_insert_sorted].
Qed.

End ArraySortFacts.

(** ** Diagnostics without edits and the fixer *)



(** A rule whose meta declares [fixable] has the edits of its fix
    attached to the diagnostic. *)
Example report_keeps_fix_of_fixable_rule :
  report (H := Sample.astUtils)
         (context_assign (mkContext "foo" Sample.enabled Sample.fixable_meta)
            (ArgIssue (Sample.descriptor_with_fix (Some Sample.program) (VStr "Avoid this."))))
         (initial_world ∅)
  = (Ok tt,
     with_messages
       [mkMessage (Some "foo") (Some "error") (Some Sample.program) (VStr "Avoid this.")
                  1 0 (Some [mkEdit 0 1 "X"]) false]
       (initial_world ∅)).
Proof. reflexivity. Qed.

(** ** C5, C6, C7 *)

(** C5 (the code departs from it). A malformed issue reported through a
    rule's context makes [report] throw and leaves the buffer alone, but
    the error text reads the issue's [ruleId], a property nothing sets,
    where every other text of [report] reads [ruleName]: for the rule
    [foo] the error says [Rule undefined ...]. *)
Theorem report_malformed_error_names_undefined :
  report (H := Sample.astUtils)
         (context_assign Sample.foo_context
            (ArgIssue (Sample.descriptor None (VStr "Avoid this."))))
         (initial_world ∅)
  = (Throw "Rule undefined does not provide a valid AST node", initial_world ∅)
  /\
  report (H := Sample.astUtils)
         (context_assign Sample.foo_context
            (ArgIssue (Sample.descriptor (Some Sample.program) VUndefined)))
         (initial_world ∅)
  = (Throw "Rule undefined flags a node but doesn't provide an error description",
     initial_world ∅)
  /\
  (Sample.run_lint "contract A {}" 1 false
     (Sample.world_of (Sample.config_of ["no-node"]))).1
  = Throw "Rule undefined does not provide a valid AST node".
Proof. repeat split; by vm_compute. Qed.

(** C6 (as stated, refuted). [reportInternal] does not validate as
    [report] does: an issue with neither node nor message, which [report]
    refuses, is accepted and buffered. *)
Lemma reportInternal_accepts_what_report_refuses :
  let issue := ArgIssue (mkIssue None None (Some "warning") None VUndefined None FixAbsent None) in
  (exists e, report (H := Sample.astUtils) issue (initial_world ∅)
             = (Throw e, initial_world ∅))
  /\ (reportInternal issue (initial_world ∅)).1 = Ok tt
  /\ length (messages (reportInternal issue (initial_world ∅)).2) = 1%nat.
Proof. intros issue. split; [by eexists | split; reflexivity]. Qed.

(** C6 (amended). [reportInternal] refuses only what is no object, with
    the error [Invalid error object]; any object is buffered as it is, with
    [internal] forced to [true] and the position set to line -1,
    column -1. *)
Theorem reportInternal_spec :
  (forall v w, reportInternal (ArgOther v) w = (Throw "Invalid error object", w))
  /\
  (forall issue w, exists m,
      reportInternal (ArgIssue issue) w
      = (Ok tt, with_messages (messages w ++ [m]) w)
      /\ internal m = true /\ line m = (-1)%Z /\ column m = (-1)%Z
      /\ message m = i_message issue /\ m_type m = i_type issue
      /\ m_node m = i_node issue).
Proof.
  split; [done |]. intros issue w. exists (assign_internal issue).
  by rewrite reportInternal_object.
Qed.



(** The same through [lintAndFix]: the fix of a rule without [fixable]
    changes nothing and is answered by one internal warning; the fix of a
    fixable rule is applied. *)
Example lintAndFix_ignores_fix_of_unfixable_rule :
  match (Sample.run_lintAndFix "contract A {}" 1 false
           (Sample.world_of (Sample.config_of ["unfixable-fix"]))).1 with
  | Ok fixed =>
      fixesApplied fixed = 0%nat
      /\ fixedSourceCode fixed = "contract A {}"
      /\ map internal (errorMessages fixed) = [true; false]
      /\ map m_fix (errorMessages fixed) = [None; None]
  | Throw _ => False
  end.
Proof. by vm_compute. Qed.

Example lintAndFix_applies_fix_of_fixable_rule :
  match (Sample.run_lintAndFix "contract A {}" 1 false
           (Sample.world_of (Sample.config_of ["fixer"]))).1 with
  | Ok fixed =>
      fixesApplied fixed = 1%nat
      /\ fixedSourceCode fixed = "Xontract A {}"
      /\ errorMessages fixed = []
  | Throw _ => False
  end.
Proof. by vm_compute. Qed.

(** ** Invariants through the monad *)

Section PreservesMonad.
Context (P : World -> Prop).

Lemma preserves_ret {A} (a : A) : preserves P (ret a).
Proof. intros w r w' HP [= <- <-]. done. Qed.

Lemma preserves_throw {A} (e : string) : preserves P (throw (A := A) e).
Proof. intros w r w' HP [= <- <-]. done. Qed.

Lemma preserves_gets {A} (f : World -> A) : preserves P (gets f).
Proof. intros w r w' HP [= <- <-]. done. Qed.

Lemma preserves_lift {A} (x : result A) : preserves P (lift x).
Proof. intros w r w' HP [= <- <-]. done. Qed.

Lemma preserves_modify (f : World -> World) :
  (forall w, P w -> P (f w)) -> preserves P (modify f).
Proof. intros Hf w r w' HP [= <- <-]. auto. Qed.

Lemma preserves_bind {A B} (c : M A) (k : A -> M B) :
  preserves P c -> (forall a, preserves P (k a)) -> preserves P (bind c k).
Proof.
  intros Hc Hk w r w' HP. unfold bind.
  destruct (c w) as [[a | e] w1] eqn:Hcw.
  - intros Hkw. eapply Hk; [| exact Hkw]. eapply Hc; [exact HP | exact Hcw].
  - intros [= <- <-]. eapply Hc; [exact HP | exact Hcw].
Qed.

Lemma preserves_forEach {A} (f : A -> M unit) (xs : list A) :
  (forall x, preserves P (f x)) -> preserves P (forEach f xs).
Proof.
  intros Hf. induction xs as [|x xs IH]; simpl.
  - apply preserves_ret.
  - apply preserves_bind; [apply Hf | intros _; exact IH].
Qed.

End PreservesMonad.

(** A predicate on the session that is stable under what the linter does
    after it has made its copy of the configuration: buffering a message
    whose position is the sentinel if it is internal, replacing the
    listeners, writing a field of [currentConfig], and replacing the
    buffer by a selection of it. *)
Section Invariant.
Context `{AstUtils} `{RuleRegistry} `{RuleInspector} `{ConfigInspector}.
Context (P : World -> Prop).

Hypothesis P_push : forall w m,
  (internal m = true -> line m = (-1)%Z /\ column m = (-1)%Z) ->
  P w -> P (with_messages (messages w ++ [m]) w).
Hypothesis P_listeners : forall w ls, P w -> P (with_listeners ls w).
Hypothesis P_current_set : forall k v, preserves P (current_set k v).
Hypothesis P_select : forall w ms,
  (forall m, m ∈ ms -> m ∈ messages w) -> P w -> P (with_messages ms w).

Lemma push_preserves (m : Message) :
  (internal m = true -> line m = (-1)%Z /\ column m = (-1)%Z) ->
  preserves P (push m).
Proof. intros Hm. apply preserves_modify. intros w. by apply P_push. Qed.

Lemma reportInternal_preserves (issue : ReportArg) : preserves P (reportInternal issue).
Proof.
  destruct issue as [v | issue]; simpl; [apply preserves_throw |].
  by apply push_preserves.
Qed.

Lemma report_preserves (error : ReportArg) : preserves P (report error).
Proof.
  destruct error as [v | error]; simpl; [apply preserves_throw |].
  destruct (isASTNode (i_node error)); simpl; [| apply preserves_throw].
  destruct (is_description (i_message error)); simpl; [| apply preserves_throw].
  apply preserves_bind; [apply preserves_gets |]. intros text.
  destruct (i_fix error) as [| | f].
  - by apply push_preserves.
  - destruct (i_ruleMeta error) as [meta |]; [| apply preserves_throw].
    destruct (is_fixable meta); simpl; [apply preserves_throw |].
    apply preserves_bind; [by apply push_preserves |].
    intros _. by apply push_preserves.
  - destruct (i_ruleMeta error) as [meta |]; [| apply preserves_throw].
    destruct (is_fixable meta); simpl; [by apply push_preserves |].
    apply preserves_bind; [by apply push_preserves |].
    intros _. by apply push_preserves.
Qed.

Lemma emit_preserves (type : string) (emitted : Emitted) :
  preserves P (emit type emitted).
Proof.
  apply preserves_bind; [apply preserves_gets |]. intros ls.
  apply preserves_forEach. intros l.
  destruct (String.eqb l.1 type); [| apply preserves_ret].
  apply preserves_forEach, report_preserves.
Qed.

Lemma visitor_enter_preserves (node : Node) (parent : option Node) :
  preserves P (visitor_enter node parent).
Proof.
  apply preserves_bind; [apply emit_preserves | intros _; apply preserves_ret].
Qed.

Lemma visitor_leave_preserves (node : Node) : preserves P (visitor_leave node).
Proof.
  apply preserves_bind; [apply emit_preserves | intros _; apply preserves_ret].
Qed.

Lemma traverse_preserves (node : Node) :
  forall parent, preserves P (traverse node parent).
Proof.
  induction node as [node IH] using Node_children_ind. intros parent.
  destruct node as [type s e props par kids]. simpl in *.
  apply preserves_bind; [apply visitor_enter_preserves |]. intros entered.
  apply preserves_bind; [| intros kids'; apply visitor_leave_preserves].
  induction IH as [| c cs Hc _ IHcs]; [apply preserves_ret |].
  apply preserves_bind; [apply Hc |]. intros c'.
  apply preserves_bind; [apply IHcs | intros rest'; apply preserves_ret].
Qed.

Lemma load_rule_preserves (rules : Value) (name : string) :
  preserves P (load_rule rules name).
Proof.
  unfold load_rule. destruct (rules_get name) as [r |].
  - destruct (isAValidRuleObject (Some r)); simpl; [| apply preserves_throw].
    destruct (nullish (get_field name rules)); [apply preserves_throw |].
    destruct (truthy _ && negb _); [apply preserves_throw |].
    apply preserves_bind.
    + destruct (deprecated (meta r)); [by apply push_preserves | apply preserves_ret].
    + intros _. destruct (verify r _) as [subs | e]; [| apply preserves_throw].
      apply preserves_modify. intros w. apply P_listeners.
  - destruct (negb _); apply preserves_throw.
Qed.

Lemma load_rules_preserves : preserves P load_rules.
Proof.
  apply preserves_bind; [apply preserves_gets |]. intros cur.
  destruct (isFormatDeprecated cur).
  - apply preserves_bind; [apply reportInternal_preserves |]. intros _.
    apply preserves_bind.
    { destruct (truthy _); [apply reportInternal_preserves | apply preserves_ret]. }
    intros _. apply preserves_bind; [apply preserves_lift |]. intros loaded.
    apply P_current_set.
  - apply preserves_bind; [apply preserves_lift |]. intros loaded.
    apply P_current_set.
Qed.

Lemma subscribe_rules_preserves : preserves P subscribe_rules.
Proof.
  apply preserves_bind; [apply preserves_gets |]. intros cur.
  apply preserves_forEach, load_rule_preserves.
Qed.

Lemma collect_preserves : preserves P collect.
Proof.
  apply preserves_bind; [apply preserves_gets |]. intros cur.
  apply preserves_bind.
  { destruct (negb _); [| apply preserves_ret].
    apply preserves_modify. intros w. apply P_select.
    intros m Hm. by apply list_elem_of_filter in Hm as [_ Hm]. }
  intros _. apply preserves_bind.
  { apply preserves_modify. intros w. apply P_select.
    intros m Hm. by apply array_sort_elem_of in Hm. }
  intros _. apply preserves_bind; [apply preserves_gets |]. intros errorObjects.
  apply preserves_bind; [| intros _; apply preserves_ret].
  apply preserves_modify. intros w. apply P_select. intros m Hm. by apply elem_of_nil in Hm.
Qed.

End Invariant.

Lemma hoare_bind {A B} (P Q R : World -> Prop) (c : M A) (k : A -> M B) :
  hoare P c Q -> (forall w, Q w -> R w) -> (forall a, hoare Q (k a) R) ->
  hoare P (bind c k) R.
Proof.
  intros Hc HQR Hk w r w' HP. unfold bind.
  destruct (c w) as [[a | e] w1] eqn:Hcw.
  - intros Hkw. eapply Hk; [| exact Hkw]. eapply Hc; [exact HP | exact Hcw].
  - intros [= <- <-]. apply HQR. eapply Hc; [exact HP | exact Hcw].
Qed.

(** ** The buffer invariant *)

Section BufferInvariant.
Context `{AstUtils} `{RuleRegistry} `{RuleInspector} `{ConfigInspector}.


Lemma buffer_ok_select w ms :
  (forall m, m ∈ ms -> m ∈ messages w) ->
  buffer_ok w -> buffer_ok (with_messages ms w).
Proof.
  intros Hsub Hw. unfold buffer_ok, internal_at_sentinel in *. simpl.
  rewrite Forall_forall in *. auto.
Qed.






End BufferInvariant.

(** ** The heap frame *)

Section HeapFrame.
Context `{AstUtils} `{RuleRegistry} `{RuleInspector} `{ConfigInspector}.
Context (h0 : gmap loc Value).











End HeapFrame.

(** ** [lint] and the caller's objects *)

Section LintFrame.
Context `{AstUtils} `{RuleRegistry} `{RuleInspector} `{ConfigInspector} `{Parser}.




End LintFrame.

(** ** C9, C10 *)



(** ** The order of the diagnostics returned *)

Lemma compareMessages_le (a b : Message) :
  before compareMessages a b <-> position_le a b.
Proof.
  unfold before, compareMessages, position_le.
  destruct (Z.eqb_spec (line a - line b) 0); simpl; lia.
Qed.

Lemma compareMessages_total (a b : Message) :
  before compareMessages a b \/ before compareMessages b a.
Proof. rewrite !compareMessages_le. unfold position_le. lia. Qed.

Lemma compareMessages_trans (a b c : Message) :
  before compareMessages a b -> before compareMessages b c ->
  before compareMessages a c.
Proof. rewrite !compareMessages_le. unfold position_le. lia. Qed.

Lemma StronglySorted_weaken {A} (R R' : relation A) (l : list A) :
  (forall a b, R a b -> R' a b) -> StronglySorted R l -> StronglySorted R' l.
Proof.
  intros HR. induction 1 as [|x l Hl IH Hx]; constructor; [done |].
  eapply Forall_impl; [exact Hx | auto].
Qed.

Lemma sorted_by_position (ms : list Message) :
  StronglySorted position_le (array_sort compareMessages ms).
Proof.
  eapply StronglySorted_weaken; [| apply array_sort_sorted].
  - intros a b. apply compareMessages_le.
  - apply compareMessages_total.
  - apply compareMessages_trans.
Qed.



Section LintOrder.
Context `{AstUtils} `{RuleRegistry} `{RuleInspector} `{ConfigInspector} `{Parser}.



End LintOrder.

(** ** C1 *)




(** ** Sessions *)

Section LintSession.
Context `{AstUtils} `{RuleRegistry} `{RuleInspector} `{ConfigInspector} `{Parser}.




End LintSession.

(** ** C3 *)




(** ** The walk over the tree *)

Section Traversal.
Context `{AstUtils}.

Lemma visitor_enter_returns node parent w entered w' :
  visitor_enter node parent w = (Ok entered, w') -> entered = delete_parent node.
Proof.
  unfold visitor_enter.
  intros ([] & w1 & _ & [= <- _])%bind_inv_ok. reflexivity.
Qed.

Lemma visitor_leave_returns node w left w' :
  visitor_leave node w = (Ok left, w') -> left = node.
Proof.
  unfold visitor_leave.
  by intros ([] & w1 & _ & [= <- _])%bind_inv_ok.
Qed.

(** A walk that completes leaves every node without [parent] property and
    with everything else it had. *)
Lemma traverse_returns (node : Node) :
  forall parent w node' w',
    traverse node parent w = (Ok node', w') -> node' = strip_parent node.
Proof.
  induction node as [node IH] using Node_children_ind.
  destruct node as [type s e props par kids]. simpl in IH.
  intros parent w node' w'. simpl.
  intros (entered & w1 & Henter & Hrun)%bind_inv_ok.
  apply visitor_enter_returns in Henter.
  apply bind_inv_ok in Hrun as (kids' & w2 & Hkids & Hleave).
  apply visitor_leave_returns in Hleave.
  assert (kids' = map strip_parent kids) as ->.
  { clear Henter Hleave. revert w1 w2 kids' Hkids.
    induction IH as [| c cs Hc _ IHcs]; intros w1 w2 kids' Hkids.
    - by injection Hkids as <- _.
    - apply bind_inv_ok in Hkids as (c' & w3 & Hwalk & Hkids).
      apply bind_inv_ok in Hkids as (rest' & w4 & Hrest & [= <- _]).
      simpl. f_equal; [by eapply Hc | by eapply IHcs]. }
  by subst.
Qed.

End Traversal.

(** ** C8 *)

(** C8 (as stated, refuted). The tree is parsed without [parent]
    properties, yet a listener entered on the contract finds the program in
    [node.parent]: the walk has written the property onto the node.  On
    leaving the contract the property is gone again. *)
Lemma listener_finds_parent_written_on_node :
  Forall (fun c => nparent c = None) (nchildren Sample.program)
  /\ match (Sample.run_lint "contract A {}" 1 false
              (Sample.world_of (Sample.config_of ["probe-parent"]))).1 with
     | Ok [entering; leaving] =>
         message entering = VStr "enter: parent is Program"
         /\ message leaving = VStr "leave: no parent"
     | _ => False
     end.
Proof. split; [by repeat constructor | by vm_compute]. Qed.

(** C8 (amended). The walk hands the immediate parent to the listeners of
    [enter] by writing it onto the node as [node.parent] before they run
    and deleting the property right after; the listeners of [leave] get the
    node as the walk has left it.  Nothing else is written: a walk that
    completes returns the tree as it was, without [parent] properties. *)
Theorem traverse_parent_is_transient `{AstUtils} :
  (forall node parent,
      visitor_enter node parent
      = (let! _ := emit (ntype node) (mkEmitted (set_parent node parent) false) in
         ret (delete_parent node)))
  /\ (forall node,
        visitor_leave node
        = (let! _ := emit (ntype node) (mkEmitted node true) in ret node))
  /\ (forall node parent w node' w',
        traverse node parent w = (Ok node', w') ->
        node' = strip_parent node
        /\ (strip_parent node = node -> node' = node)).
Proof.
  split; [done |]. split; [done |].
  intros node parent w node' w' Hrun.
  apply traverse_returns in Hrun. split; [done | congruence].
Qed.

Lemma traverse_parent_is_transient_witness :
  Sample.probed_walk.1 = Ok Sample.program
  /\ Sample.program = strip_parent Sample.program
  /\ (strip_parent Sample.program = Sample.program -> Sample.program = Sample.program).
Proof.
  split; [by vm_compute |].
  apply (proj2 (proj2 (traverse_parent_is_transient (H := Sample.astUtils)))
           Sample.program None
           (with_listeners
              [context_on Sample.foo_context ("ContractStatement", Sample.probe_listener)]
              (initial_world ∅))
           Sample.program Sample.probed_walk.2).
  vm_compute. reflexivity.
Defined.

(** ** Computations that return and computations that throw *)


Lemma throws_bind_l {A B} P (c : M A) e Q (k : A -> M B) :
  throws P c e Q -> throws P (bind c k) e Q.
Proof.
  intros Hc w HP. destruct (Hc w HP) as (w1 & Hrun & HQ).
  exists w1. split; [| done]. by rewrite (bind_throw _ _ _ _ _ Hrun).
Qed.

Lemma throws_bind_r {A B} P (c : M A) Q (k : A -> M B) e R :
  returns P c Q -> (forall a, throws (Q a) (k a) e R) -> throws P (bind c k) e R.
Proof.
  intros Hc Hk w HP. destruct (Hc w HP) as (a & w1 & Hrun & HQ).
  destruct (Hk a w1 HQ) as (w2 & Hrun' & HR).
  exists w2. split; [| done]. by rewrite (bind_ok _ _ _ _ _ Hrun).
Qed.


Lemma returns_modify (P Q : World -> Prop) (f : World -> World) :
  (forall w, P w -> Q (f w)) -> returns P (modify f) (fun _ => Q).
Proof. intros Hf w HP. exists tt, (f w). split; [done | auto]. Qed.

(** [forEach] stops at the first element whose turn throws. *)
Lemma throws_forEach {A} (P : World -> Prop) (f : A -> M unit) e pre x post :
  Forall (fun y => returns P (f y) (fun _ => P)) pre ->
  throws P (f x) e P ->
  throws P (forEach f (pre ++ x :: post)) e P.
Proof.
  induction 1 as [| y pre Hy _ IH]; intros Hx; simpl.
  - by apply throws_bind_l.
  - eapply throws_bind_r; [exact Hy | intros []; by apply IH].
Qed.


Lemma throws_assume {A} (phi : Prop) (P : World -> Prop) (c : M A) e Q :
  (phi -> throws P c e Q) -> throws (fun w => phi /\ P w) c e Q.
Proof. intros Hc w [Hphi HP]. by apply Hc. Qed.

Lemma returns_lift {A} (P : World -> Prop) (a : A) :
  returns P (lift (Ok a)) (fun x w => x = a /\ P w).
Proof. intros w HP. by exists a, w. Qed.

Lemma throws_throw {A} (P : World -> Prop) (e : string) :
  throws P (throw (A := A) e) e P.
Proof. intros w HP. by exists w. Qed.

(** ** Rejecting a rule *)




Section Rejection.
Context `{AstUtils} `{RuleRegistry} `{RuleInspector} `{ConfigInspector}.
Context (text : string).

Local Abbreviation working_on := (working_on text).




Lemma copy_config_returns config cfgv :
  returns (fun w => heap w !! config = Some cfgv /\ sourceCodeText w = text)
          (copy_config config)
          (fun _ => working_on (effective_config cfgv)).
Proof.
  intros w [Hcfg Hs].
  unfold copy_config, bind, deref, gets, alloc, modify, current, current_set. simpl.
  rewrite Hcfg, lookup_insert_eq. simpl.
  eexists tt, _. split; [reflexivity |]. split; [| done].
  eexists. split; [reflexivity |]. simpl.
  by rewrite lookup_alter_eq, lookup_insert_eq.
Qed.






End Rejection.

(** ** C2 *)




(** ** The fixer *)









(** ** C4 *)




(** * Further properties of the module *)

(** ** Arguments that are refused *)

Section Refusal.
Context `{AstUtils} `{RuleRegistry} `{RuleInspector} `{ConfigInspector} `{Parser}.

(** What [lint] does once its arguments are accepted. *)
Lemma lint_accepted sourceCode text config noReset w :
  decode_buffer sourceCode = Ok (SrcValue (VStr text)) ->
  String.eqb text "" = false ->
  isValid (default VUndefined (heap w !! config)) = true ->
  lint sourceCode config noReset w
  = (let! _ := if negb noReset then reset else ret tt in
     let! _ := configure text config in
     match parse text with
     | inl e => throw ("An error occured while parsing the source code: " +:+ e)
     | inr AST => let! _ := traverse AST None in collect
     end) w.
Proof.
  intros Hdec Htext Hvalid. unfold lint at 1.
  unfold bind at 1, lift. rewrite Hdec, Htext.
  unfold bind at 1, deref, gets. by rewrite Hvalid.
Qed.



Lemma lint_decoded sourceCode sc config noReset w :
  decode_buffer sourceCode = Ok sc ->
  lint sc config noReset w = lint sourceCode config noReset w.
Proof.
  destruct sourceCode as [v | bytes]; simpl.
  - destruct v; intros [= <-]; reflexivity.
  - intros [= <-]. reflexivity.
Qed.

End Refusal.



(** ** What [collect] hands over *)

Lemma rule_diagnostics_idemp (ms : list Message) :
  rule_diagnostics (rule_diagnostics ms) = rule_diagnostics ms.
Proof.
  unfold rule_diagnostics. induction ms as [| m ms IH]; [done |].
  destruct (decide (internal m = false)) as [Hm | Hm].
  - rewrite (filter_cons_True _ m ms Hm), (filter_cons_True _ m _ Hm). by rewrite IH.
  - by rewrite (filter_cons_False _ m ms Hm).
Qed.

Lemma rule_diagnostics_all (ms : list Message) :
  Forall (fun m => internal m = false) (rule_diagnostics ms).
Proof.
  apply Forall_forall. intros m Hm. by apply list_elem_of_filter in Hm as [Hm _].
Qed.

Lemma collect_filters (w : World) :
  returnInternalIssues (current_value w) = false ->
  collect w
  = (Ok (array_sort compareMessages (rule_diagnostics (messages w))), with_messages [] w).
Proof.
  unfold collect, bind, current, gets, modify, returnInternalIssues, current_value.
  by intros ->.
Qed.

(** X2. [collect] always returns, and empties the buffer.  What it
    returns is sorted by (line, column) and holds every rule diagnostic of
    the buffer, each as often as it was buffered; it holds the internal
    ones as well exactly when [options.returnInternalIssues] is set, and
    none of them otherwise. *)
Theorem collect_keeps_rule_diagnostics (w : World) :
  exists diagnostics,
    collect w = (Ok diagnostics, with_messages [] w)
    /\ StronglySorted position_le diagnostics
    /\ rule_diagnostics diagnostics ≡ₚ rule_diagnostics (messages w)
    /\ (if returnInternalIssues (current_value w)
        then diagnostics ≡ₚ messages w
        else Forall (fun m => internal m = false) diagnostics).
Proof.
  unfold collect, bind, current, gets, modify, returnInternalIssues, current_value.
  destruct (truthy _) eqn:Hflag; simpl.
  - exists (array_sort compareMessages (messages w)).
    split; [by destruct w |]. split; [apply sorted_by_position |].
    split; [unfold rule_diagnostics; by rewrite array_sort_perm |].
    apply array_sort_perm.
  - exists (array_sort compareMessages (rule_diagnostics (messages w))).
    split; [reflexivity |]. split; [apply sorted_by_position |].
    split.
    { rewrite <- (rule_diagnostics_idemp (messages w)) at 2.
      unfold rule_diagnostics at 1 3. by rewrite array_sort_perm. }
    eapply Forall_forall. intros m Hm. apply array_sort_elem_of in Hm.
    revert m Hm. apply Forall_forall, rule_diagnostics_all.
Qed.

(** ** The options of a call *)

Lemma returns_hoare {A} (P Q : World -> Prop) (c : M A) :
  returns P c (fun _ => Q) -> hoare P c Q.
Proof.
  intros Hc w r w' HP Hrun. destruct (Hc w HP) as (a & w1 & Hrun' & HQ).
  rewrite Hrun in Hrun'. by injection Hrun' as _ ->.
Qed.

Lemma hoare_bind_returns {A B} (P : World -> Prop) (c : M A) Q (k : A -> M B) R :
  returns P c Q -> (forall a, hoare (Q a) (k a) R) -> hoare P (bind c k) R.
Proof.
  intros Hc Hk w r w' HP. destruct (Hc w HP) as (a & w1 & Hrun & HQ).
  rewrite (bind_ok _ _ _ _ _ Hrun). by apply Hk.
Qed.

Lemma assoc_get_set_ne (k k' : string) (v : Value) (fields : list (string * Value)) :
  k <> k' -> assoc_get k (assoc_set k' v fields) = assoc_get k fields.
Proof.
  intros Hne. induction fields as [| [k0 v0] fields IH]; simpl.
  - by apply String.eqb_neq in Hne as ->.
  - destruct (String.eqb_spec k' k0) as [-> | Hk0]; simpl.
    + by apply String.eqb_neq in Hne as ->.
    + by rewrite IH.
Qed.

Lemma get_field_set_ne (k k' : string) (v o : Value) :
  k <> k' -> get_field k (set_field k' v o) = get_field k o.
Proof. intros Hne. destruct o; simpl; try done. by apply assoc_get_set_ne. Qed.

Section Options.
Context `{AstUtils} `{RuleRegistry} `{RuleInspector} `{ConfigInspector}.
Context (opts : Value).

Lemma options_are_push w m :
  options_are opts w -> options_are opts (with_messages (messages w ++ [m]) w).
Proof. done. Qed.

Lemma options_are_set_rules x : preserves (options_are opts) (current_set "rules" x).
Proof.
  apply preserves_modify. intros w (v & (l & Hc & Hl) & Hv). rewrite Hc.
  exists (set_field "rules" x v). split.
  - exists l. split; [done |]. simpl. by rewrite lookup_alter_eq, Hl.
  - by rewrite get_field_set_ne.
Qed.

Lemma options_are_load_rules : preserves (options_are opts) load_rules.
Proof.
  apply preserves_bind; [apply preserves_gets |]. intros cur.
  destruct (isFormatDeprecated cur).
  - apply preserves_bind; [by apply preserves_modify |]. intros [].
    apply preserves_bind.
    { destruct (truthy _); [by apply preserves_modify | apply preserves_ret]. }
    intros []. apply preserves_bind; [apply preserves_lift |]. intros loaded.
    apply options_are_set_rules.
  - apply preserves_bind; [apply preserves_lift |]. intros loaded.
    apply options_are_set_rules.
Qed.

Lemma options_are_current w :
  options_are opts w -> get_field "options" (current_value w) = opts.
Proof.
  intros (v & (l & Hc & Hl) & Hv). unfold current_value. by rewrite Hc, Hl.
Qed.

End Options.

Section Accepted.
Context `{AstUtils} `{RuleRegistry} `{RuleInspector} `{ConfigInspector} `{Parser}.

Lemma reset_keeps_cell (noReset : bool) config cfgv w :
  heap w !! config = Some cfgv ->
  returns (fun w' => w' = w) (if negb noReset then reset else ret tt)
          (fun _ w' => heap w' !! config = Some cfgv).
Proof.
  intros Hcfg w' ->. destruct noReset; simpl.
  - by exists tt, w.
  - eexists tt, _. split; [reflexivity |]. simpl.
    rewrite lookup_insert_ne; [done |]. intros Heq.
    apply (is_fresh (dom (heap w))). rewrite Heq. apply elem_of_dom. by rewrite Hcfg.
Qed.

(** Once [configure] has made its copy, the options of the session are
    those of the copy, whether it goes on to return or to throw. *)
Lemma configure_options text config cfgv :
  hoare (fun w => heap w !! config = Some cfgv)
        (configure text config)
        (options_are (get_field "options" (effective_config cfgv))).
Proof.
  unfold configure.
  eapply hoare_bind_returns.
  { apply (returns_modify _ (fun w => heap w !! config = Some cfgv
                                     /\ sourceCodeText w = text)).
    by intros w. }
  intros []. eapply hoare_bind_returns.
  { apply (returns_modify _ (fun w => heap w !! config = Some cfgv
                                     /\ sourceCodeText w = text)).
    by intros w. }
  intros []. eapply hoare_bind_returns; [apply (copy_config_returns text config cfgv) |].
  intros [] w r w' [Hw _] Hrun.
  assert (options_are (get_field "options" (effective_config cfgv)) w) as Hopts
    by (by eexists).
  revert Hrun. apply preserves_bind; [apply options_are_load_rules | | done].
  intros []. by apply subscribe_rules_preserves.
Qed.

(** A call that returns has gone through [collect] with the options of
    its configuration. *)
Lemma lint_collects sourceCode config noReset w cfgv ds w' :
  heap w !! config = Some cfgv ->
  lint sourceCode config noReset w = (Ok ds, w') ->
  exists w3,
    get_field "options" (current_value w3) = get_field "options" (effective_config cfgv)
    /\ collect w3 = (Ok ds, w').
Proof.
  intros Hcfg. unfold lint.
  intros (sc & w0 & [= Hdec <-] & Hrun)%bind_inv_ok.
  destruct sc as [v | bytes]; [| discriminate].
  destruct v as [| | b | z | text | items | fields]; try discriminate.
  destruct (String.eqb text ""); [discriminate |].
  apply bind_inv_ok in Hrun as (original & w0 & [= <- <-] & Hrun).
  destruct (negb (isValid _)); [discriminate |].
  apply bind_inv_ok in Hrun as ([] & w1 & Hreset & Hrun).
  destruct (reset_keeps_cell noReset config cfgv w Hcfg w eq_refl)
    as ([] & w1' & Hreset' & Hcfg1).
  rewrite Hreset in Hreset'. injection Hreset' as <-.
  apply bind_inv_ok in Hrun as ([] & w2 & Hconf & Hrun).
  apply (configure_options text config cfgv w1 _ _ Hcfg1) in Hconf.
  destruct (parse text) as [e | AST]; [discriminate |].
  apply bind_inv_ok in Hrun as (ast' & w3 & Htrav & Hrun).
  apply (traverse_preserves
           (options_are (get_field "options" (effective_config cfgv)))
           (fun w0 m _ Hw0 => options_are_push _ w0 m Hw0) AST None w2 _ _ Hconf)
    in Htrav.
  exists w3. split; [by apply options_are_current | done].
Qed.

End Accepted.

(** X3. Unless the configuration sets [options.returnInternalIssues], a
    call that returns returns no internal diagnostic. *)
Theorem lint_drops_internal_issues
    `{AstUtils} `{RuleRegistry} `{RuleInspector} `{ConfigInspector} `{Parser}
    (sourceCode : SourceArg) (config : loc) (noReset : bool)
    (w w' : World) (cfgv : Value) (diagnostics : list Message) :
  heap w !! config = Some cfgv ->
  returnInternalIssues (effective_config cfgv) = false ->
  lint sourceCode config noReset w = (Ok diagnostics, w') ->
  Forall (fun m => internal m = false) diagnostics.
Proof.
  intros Hcfg Hflag Hrun.
  destruct (lint_collects _ _ _ _ _ _ _ Hcfg Hrun) as (w3 & Hopts & Hcollect).
  rewrite collect_filters in Hcollect
    by (unfold returnInternalIssues in *; by rewrite Hopts).
  injection Hcollect as <- _.
  apply Forall_forall. intros m Hm. apply array_sort_elem_of in Hm.
  revert m Hm. apply Forall_forall, rule_diagnostics_all.
Qed.

Lemma lint_drops_internal_issues_witness :
  Forall (fun m => internal m = false) (Sample.returned More.quiet_run).
Proof.
  apply (lint_drops_internal_issues
           (H := Sample.astUtils) (H0 := Sample.registry) (H1 := Sample.ruleInspector)
           (H2 := Sample.configInspector) (H3 := Sample.parser)
           (SrcValue (VStr "contract A {}")) 1%positive false
           (Sample.world_of (More.quiet_config ["deprecated-rule"; "probe-parent"]))
           More.quiet_run.2
           (More.quiet_config ["deprecated-rule"; "probe-parent"])).
  - reflexivity.
  - reflexivity.
  - vm_compute. reflexivity.
Defined.

(** ** The source text of the session *)

Section SourceText.
Context `{AstUtils} `{RuleRegistry} `{RuleInspector} `{ConfigInspector} `{Parser}.
Context (text : string).

Local Abbreviation holds := (fun w : World => sourceCodeText w = text).

Lemma holds_current_set k v : preserves holds (current_set k v).
Proof. apply preserves_modify. intros w Hw. by destruct (currentConfig w). Qed.

Lemma holds_copy_config config : preserves holds (copy_config config).
Proof.
  apply preserves_bind; [apply preserves_gets |]. intros original.
  apply preserves_bind; [by intros w r w' Hw [= <- <-] |]. intros copy.
  apply preserves_bind; [by apply preserves_modify |]. intros [].
  apply preserves_bind; [apply preserves_gets |]. intros cur.
  apply holds_current_set.
Qed.

Lemma configure_holds config : hoare (fun _ => True) (configure text config) holds.
Proof.
  unfold configure. eapply hoare_bind_returns.
  { apply (returns_modify _ holds). by intros w. }
  intros []. apply preserves_bind; [by apply preserves_modify |]. intros [].
  apply preserves_bind; [apply holds_copy_config |]. intros [].
  apply preserves_bind.
  - apply load_rules_preserves; [done | apply holds_current_set].
  - intros []. by apply subscribe_rules_preserves.
Qed.

End SourceText.

(** X4. Once [lint] has accepted its arguments, the session holds the
    source text of that call, whether the call returns or throws (on a
    rejected rule, a text that does not parse, a malformed issue):
    [getSourceCode] gives that text until the next call or [reset]. *)
Theorem getSourceCode_after_lint
    `{AstUtils} `{RuleRegistry} `{RuleInspector} `{ConfigInspector} `{Parser}
    (sourceCode : SourceArg) (text : string) (config : loc) (noReset : bool)
    (w : World) :
  decode_buffer sourceCode = Ok (SrcValue (VStr text)) ->
  String.eqb text "" = false ->
  isValid (default VUndefined (heap w !! config)) = true ->
  getSourceCode (lint sourceCode config noReset w).2
  = (Ok text, (lint sourceCode config noReset w).2).
Proof.
  intros Hdec Htext Hvalid.
  rewrite (lint_accepted sourceCode text config noReset w Hdec Htext Hvalid).
  unfold getSourceCode, gets. f_equal. f_equal.
  match goal with |- sourceCodeText (?c w).2 = _ =>
    destruct (c w) as [r w'] eqn:Hrun end.
  simpl. revert w r w' Hvalid Hrun.
  assert (hoare (fun _ => True)
            (let! _ := if negb noReset then reset else ret tt in
             let! _ := configure text config in
             match parse text with
             | inl e => throw ("An error occured while parsing the source code: " +:+ e)
             | inr AST => let! _ := traverse AST None in collect
             end)
            (fun w => sourceCodeText w = text)) as Hall.
  { apply (hoare_bind_returns _ _ (fun _ _ => True)).
    { intros w0 _. destruct noReset; simpl; by eexists tt, _. }
    intros [].
    apply (hoare_bind _ (fun w => sourceCodeText w = text)); [| done |].
    { apply configure_holds. }
    intros []. destruct (parse text) as [e | AST]; [apply preserves_throw |].
    apply preserves_bind; [by apply traverse_preserves |]. intros ast'.
    by apply collect_preserves. }
  intros w r w' _ Hrun. by apply (Hall w r w').
Qed.

Lemma getSourceCode_after_lint_witness :
  getSourceCode Sample.first_call.2 = (Ok "!", Sample.first_call.2).
Proof.
  apply (getSourceCode_after_lint
           (H := Sample.astUtils) (H0 := Sample.registry) (H1 := Sample.ruleInspector)
           (H2 := Sample.configInspector) (H3 := Sample.parser)
           (SrcValue (VStr "!")) "!" 1%positive false Sample.two_configs);
    reflexivity.
Defined.

(** ** Listeners of other node types *)

Section Unheard.
Context `{AstUtils}.

Lemma forEach_skip {A} (f : A -> M unit) (xs : list A) w :
  Forall (fun x => f x w = (Ok tt, w)) xs -> forEach f xs w = (Ok tt, w).
Proof.
  induction 1 as [| x xs Hx _ IH]; simpl; [done |].
  by rewrite (bind_ok _ _ _ _ _ Hx).
Qed.

Lemma elem_of_concat_2 {A} (x : A) (l : list A) (ls : list (list A)) :
  x ∈ l -> l ∈ ls -> x ∈ concat ls.
Proof.
  intros Hx. induction 1 as [| l' ls Hl IH]; simpl; apply elem_of_app; auto.
Qed.

Lemma emit_unheard type emitted w :
  Forall (fun l => l.1 <> type) (listeners w) ->
  emit type emitted w = (Ok tt, w).
Proof.
  intros Hno. unfold emit, bind at 1, gets. apply forEach_skip.
  eapply Forall_impl; [exact Hno |]. intros l Hl. simpl in Hl.
  by apply String.eqb_neq in Hl as ->.
Qed.

(** X5. Listeners are called for the node types they subscribed to only:
    a walk over a tree none of whose nodes has a type that is listened to
    reports nothing and leaves the session as it was. *)
Theorem traverse_calls_no_other_listener
    (node : Node) (parent : option Node) (w : World) :
  Forall (fun l => l.1 ∉ node_types node) (listeners w) ->
  traverse node parent w = (Ok (strip_parent node), w).
Proof.
  revert parent w. induction node as [node IH] using Node_children_ind.
  destruct node as [type s e props par kids]. simpl in IH.
  intros parent w Hno. simpl in Hno.
  assert (Forall (fun l => l.1 <> type) (listeners w)) as Htype.
  { eapply Forall_impl; [exact Hno |]. intros l Hl Heq. apply Hl. rewrite Heq. by left. }
  assert (Forall (fun c => Forall (fun l => l.1 ∉ node_types c) (listeners w)) kids)
    as Hkids.
  { apply Forall_forall. intros c Hc.
    eapply Forall_impl; [exact Hno |]. intros l Hl Hin. apply Hl. right.
    apply (elem_of_concat_2 _ (node_types c)); [done |].
    by apply (list_elem_of_fmap_2 node_types). }
  simpl. unfold visitor_enter, enterNode. simpl.
  unfold bind at 1. unfold bind at 1. rewrite (emit_unheard type _ w Htype). simpl.
  assert (forall p,
             (fix walk (cs : list Node) : M (list Node) :=
                match cs with
                | [] => ret []
                | c :: rest =>
                    let! c' := traverse c p in
                    let! rest' := walk rest in
                    ret (c' :: rest')
                end) kids w = (Ok (map strip_parent kids), w)) as Hwalk.
  { intros p. clear Hno. induction IH as [| c cs Hc _ IHcs]; [done |].
    apply Forall_cons in Hkids as [Hck Hkids].
    rewrite (bind_ok _ _ _ _ _ (Hc _ w Hck)).
    by rewrite (bind_ok _ _ _ _ _ (IHcs Hkids)). }
  rewrite (bind_ok _ _ _ _ _ (Hwalk _)).
  unfold visitor_leave, leaveNode, set_children, delete_parent, set_parent. simpl.
  by rewrite (bind_ok _ _ _ _ _ (emit_unheard type _ w Htype)).
Qed.

End Unheard.

Lemma traverse_calls_no_other_listener_witness :
  traverse (H := Sample.astUtils) More.statements None More.contract_listener
  = (Ok (strip_parent More.statements), More.contract_listener).
Proof.
  apply (traverse_calls_no_other_listener (H := Sample.astUtils)).
  apply Forall_cons_2; [| apply Forall_nil_2].
  vm_compute. intros Hin.
  repeat (apply elem_of_cons in Hin as [Hin | Hin]; [discriminate Hin |]).
  by apply elem_of_nil in Hin.
Defined.

(** ** [report], all or nothing *)

(** X6. Whatever it is given, [report] either throws and leaves the
    session as it was, or returns having added to the buffer exactly one
    rule diagnostic, preceded by at most one internal warning: it never
    buffers the warning about an ignored fix and then throws, and never
    reports an issue twice. *)
Theorem report_all_or_nothing `{AstUtils} (error : ReportArg) (w : World) :
  (exists e, report error w = (Throw e, w))
  \/ (exists warnings msg,
        report error w = (Ok tt, with_messages (messages w ++ warnings ++ [msg]) w)
        /\ internal msg = false
        /\ (length warnings <= 1)%nat
        /\ Forall (fun m => internal m = true) warnings).
Proof.
  destruct error as [v | error]; [left; by eexists |].
  unfold report.
  destruct (isASTNode (i_node error)); simpl; [| left; by eexists].
  destruct (is_description (i_message error)); simpl; [| left; by eexists].
  unfold bind at 1, gets.
  destruct (i_fix error) as [| | f].
  - right. eexists [], _. split; [reflexivity |].
    split; [reflexivity | split; [simpl; lia | constructor]].
  - destruct (i_ruleMeta error) as [meta |]; [| left; by eexists].
    destruct (is_fixable meta); simpl; [left; by eexists |].
    right. eexists [_], _. unfold bind, push, modify. simpl.
    rewrite <- app_assoc. split; [reflexivity |].
    split; [reflexivity | split; [simpl; lia | by apply Forall_cons_2]].
  - destruct (i_ruleMeta error) as [meta |]; [| left; by eexists].
    destruct (is_fixable meta); simpl.
    + right. eexists [], _. split; [reflexivity |].
    split; [reflexivity | split; [simpl; lia | constructor]].
    + right. eexists [_], _. unfold bind, push, modify. simpl.
      rewrite <- app_assoc. split; [reflexivity |].
      split; [reflexivity | split; [simpl; lia | by apply Forall_cons_2]].
Qed.

(** ** [lintAndFix] and [lint] *)

(** X7. [lintAndFix] leaves the session exactly as [lint] does on the same
    arguments; it throws when and what [lint] throws, and when [lint]
    returns it returns, giving the decoded source text as
    [originalSourceCode]. *)
Theorem lintAndFix_follows_lint
    `{AstUtils} `{RuleRegistry} `{RuleInspector} `{ConfigInspector} `{Parser}
    (sourceCode : SourceArg) (config : loc) (noReset : bool) (w : World) :
  (lintAndFix sourceCode config noReset w).2 = (lint sourceCode config noReset w).2
  /\ match (lint sourceCode config noReset w).1 with
     | Throw e => (lintAndFix sourceCode config noReset w).1 = Throw e
     | Ok diagnostics =>
         exists fixed text,
           (lintAndFix sourceCode config noReset w).1 = Ok fixed
           /\ decode_buffer sourceCode = Ok (SrcValue (VStr text))
           /\ originalSourceCode fixed = text
     end.
Proof.
  unfold lintAndFix, bind at 1 2, lift.
  destruct (decode_buffer sourceCode) as [sc | e] eqn:Hdec.
  - rewrite <- (lint_decoded sourceCode sc config noReset w Hdec).
    unfold bind.
    destruct (lint sc config noReset w) as [[ds | e] w'] eqn:Hrun; simpl; [| done].
    split; [done |]. eexists _. exists (source_text sc). split; [reflexivity |].
    split; [| done].
    assert (exists text, sc = SrcValue (VStr text)) as [text ->]; [| done].
    unfold lint, bind at 1, lift in Hrun.
    destruct sc as [v | bytes]; simpl in Hrun.
    + destruct v; try discriminate. by eexists.
    + destruct sourceCode as [[] | bytes']; discriminate.
  - unfold lint, bind, lift. by rewrite Hdec.
Qed.

(** * The earlier revision *)

(** ** The two revisions of [report] *)

(** X8. On an issue without fix, the later [report] does what the earlier
    one did, error for error and message for message, unless the issue's
    location gives column 0: the earlier revision then took the column of
    the node, the later one keeps 0.  A line 0 is replaced by the line of
    the node in both. *)
Theorem report_revisions_agree `{AstUtils} (issue : Issue) (w : World) :
  i_fix issue = FixAbsent ->
  (forall location, i_location issue = Some location ->
                    loc_column location <> Some 0
                    \/ getColumn (astText w) (i_node issue) = 0) ->
  report (ArgIssue issue) w = report0 (ArgIssue issue) w.
Proof.
  intros Hfix Hcol. unfold report, report0. rewrite Hfix.
  destruct (isASTNode (i_node issue)); simpl; [| done].
  destruct (is_description (i_message issue)); simpl; [| done].
  unfold bind, gets, push, modify. simpl. do 3 f_equal.
  destruct (i_location issue) as [[l [c |]] |]; simpl; try done.
  destruct (Z.eqb_spec c 0) as [-> | Hc]; [| done].
  destruct (Hcol _ eq_refl) as [Hne | Hzero]; [done | by rewrite Hzero].
Qed.

Lemma report_revisions_agree_witness :
  report (H := Sample.astUtils) (ArgIssue More.located_issue) (initial_world ∅)
  = report0 (H := Sample.astUtils) (ArgIssue More.located_issue) (initial_world ∅).
Proof.
  apply (report_revisions_agree (H := Sample.astUtils) More.located_issue (initial_world ∅)).
  - reflexivity.
  - intros location [= <-]. left. discriminate.
Defined.

(** Where they differ. *)
Example report_revisions_differ_at_column_zero :
  let issue := mkIssue None (Some "foo") (Some "error")
                       (Some (Sample.leaf "ExpressionStatement" 2 4))
                       (VStr "Avoid this.") (Some (mkLocation (Some 3) (Some 0)))
                       FixAbsent None in
  map column (messages (report (H := Sample.astUtils) (ArgIssue issue) (initial_world ∅)).2)
  = [0]
  /\ map column
         (messages (report0 (H := Sample.astUtils) (ArgIssue issue) (initial_world ∅)).2)
     = [4].
Proof. by vm_compute. Qed.

(** ** Rules that fail to set up *)

Section Setup0.
Context `{AstUtils} `{RuleRegistry0}.

Lemma load_rule0_returns rules name :
  rule_passes0 rules name = true ->
  returns (fun _ => True) (load_rule0 rules name) (fun _ _ => True).
Proof.
  unfold rule_passes0, load_rule0. destruct (rules0_get name) as [rule |]; [| done].
  destruct (verify0 rule _) as [subs | e]; [| done].
  intros _. by apply returns_modify.
Qed.

Lemma load_rule0_throws rules name :
  rule_passes0 rules name = false ->
  throws (fun _ => True) (load_rule0 rules name)
         ("A valid definition for rule '" +:+ name +:+ "' not found. Description:" +:+
          nl +:+ rule_failure0 rules name)
         (fun _ => True).
Proof.
  unfold rule_passes0, rule_failure0, load_rule0.
  destruct (rules0_get name) as [rule |]; [| intros _; apply throws_throw].
  destruct (verify0 rule _) as [subs | e]; [done | intros _; apply throws_throw].
Qed.

End Setup0.

(** X9. In the earlier revision, when the rules before [name] set up and
    [name] is unknown to the registry or its [verify] throws, [lint]
    throws an error that names [name] and carries the description of what
    went wrong; the source is not parsed, whatever the parser would make
    of it. *)
Theorem lint0_names_rule_that_fails
    `{AstUtils} `{RuleRegistry0} `{Parser}
    (sourceCode : SourceArg) (text : string) (config : loc) (noReset : bool)
    (w : World) (cfgv : Value) (loaded : list (string * Value))
    (pre : list string) (name : string) (post : list string) :
  decode_buffer sourceCode = Ok (SrcValue (VStr text)) ->
  String.eqb text "" = false ->
  heap w !! config = Some cfgv ->
  isValid cfgv = true ->
  rules0_load (get_field "rules" cfgv) (get_field "custom-rules-filename" cfgv)
  = Ok loaded ->
  map fst loaded = pre ++ name :: post ->
  forallb (rule_passes0 (VObj loaded)) pre = true ->
  rule_passes0 (VObj loaded) name = false ->
  exists w',
    lint0 sourceCode config noReset w
    = (Throw ("A valid definition for rule '" +:+ name +:+ "' not found. Description:" +:+
              nl +:+ rule_failure0 (VObj loaded) name), w').
Proof.
  intros Hdec Htext Hcfg Hvalid Hload Hkeys Hpre Hname.
  unfold lint0, bind at 1, lift. rewrite Hdec, Htext.
  unfold bind at 1, deref, gets. rewrite Hcfg. simpl. rewrite Hvalid. simpl.
  match goal with |- exists w', ?c w = (Throw ?e, w') =>
    assert (throws (fun _ => True) c e (fun _ => True)) as Hthrows end.
  { eapply (throws_bind_r _ _ (fun _ _ => True)).
    { intros w0 _. destruct noReset; simpl; by eexists tt, _. }
    intros []. eapply (throws_bind_r _ _ (fun _ _ => True)); [by apply returns_modify |].
    intros []. eapply (throws_bind_r _ _ (fun _ _ => True)); [by apply returns_modify |].
    intros []. eapply (throws_bind_r _ _ (fun _ _ => True)).
    { intros w0 _. by eexists _, _. }
    intros copy.
    eapply (throws_bind_r _ _ (fun _ _ => True)); [by apply returns_modify |].
    intros []. rewrite Hload. eapply throws_bind_r; [apply returns_lift |].
    intros loaded'. apply throws_assume. intros ->.
    eapply (throws_bind_r _ _ (fun _ _ => True)); [by apply returns_modify |].
    intros []. apply throws_bind_l.
    rewrite Hkeys. apply throws_forEach; [| by apply load_rule0_throws].
    apply Forall_forall. intros n Hn. apply load_rule0_returns.
    rewrite forallb_forall in Hpre. apply Hpre. by apply list_elem_of_In. }
  destruct (Hthrows w I) as (w' & Hrun & _). by exists w'.
Qed.

(** * The rules *)

Lemma lint0_names_rule_that_fails_witness :
  exists w',
    lint0 (H := Sample.astUtils) (H0 := Earlier.registry) (H1 := Sample.parser)
          (SrcValue (VStr "contract A {}")) 1%positive false
          (Sample.world_of Earlier.config)
    = (Throw ("A valid definition for rule '" +:+ "no-such-rule" +:+
              "' not found. Description:" +:+ nl +:+
              "TypeError: Cannot read property 'verify' of undefined"), w').
Proof.
  apply (lint0_names_rule_that_fails
           (H := Sample.astUtils) (H0 := Earlier.registry) (H1 := Sample.parser)
           (SrcValue (VStr "contract A {}")) "contract A {}" 1%positive false
           (Sample.world_of Earlier.config) Earlier.config
           [("camelcase", Sample.enabled); ("no-such-rule", Sample.enabled);
            ("broken", Sample.enabled)]
           ["camelcase"] "no-such-rule" ["broken"]);
    reflexivity.
Defined.

(** ** Matching *)

#[local] Arguments String.append !_ _ / : simpl nomatch.

Lemma all_chars_app cls a b :
  all_chars cls (a +:+ b) = all_chars cls a && all_chars cls b.
Proof. induction a as [| c a IH]; simpl; [done |]. by rewrite IH, andb_assoc. Qed.

(** [star] accepts the texts that split into characters of the class
    and a rest that the continuation accepts. *)
Lemma star_spec cls k s :
  star cls k s = true <->
  exists a b, s = a +:+ b /\ all_chars cls a = true /\ k b = true.
Proof.
  split.
  - induction s as [| c s IH]; simpl.
    + rewrite orb_false_r. intros Hk. by exists "", "".
    + intros [Hk | [Hc Hs]%andb_prop]%orb_prop.
      * by exists "", (String c s).
      * destruct (IH Hs) as (a & b & -> & Ha & Hb).
        exists (String c a), b. simpl. by rewrite Hc, Ha.
  - intros (a & b & -> & Ha & Hb). induction a as [| c a IH]; simpl in *.
    + destruct b; simpl; by rewrite Hb.
    + apply andb_prop in Ha as [Hc Ha]. rewrite Hc, (IH Ha). apply orb_true_r.
Qed.

Lemma string_app_assoc (a b c : string) : (a +:+ b) +:+ c = a +:+ (b +:+ c).
Proof. induction a as [| x a IH]; simpl; [done | by rewrite IH]. Qed.

Lemma lower_letter c : lower c = true -> letter c = true.
Proof. unfold letter. by intros ->. Qed.

Lemma all_lower_letter a : all_chars lower a = true -> all_chars letter a = true.
Proof.
  induction a as [| c a IH]; simpl; [done |].
  intros [Hc Ha]%andb_prop. by rewrite (lower_letter c Hc), IH.
Qed.

Lemma string_app_empty (a : string) : a +:+ "" = a.
Proof. induction a as [| x a IH]; simpl; [done | by rewrite IH]. Qed.

(** [[a-z]*[a-zA-Z]*$] accepts the texts made of letters. *)
Lemma letters_spec s :
  star lower (star letter (fun rest => String.eqb rest "")) s = true
  <-> all_chars letter s = true.
Proof.
  split.
  - intros (a & b & -> & Ha & Hb)%star_spec.
    apply star_spec in Hb as (a' & b' & -> & Ha' & ->%String.eqb_eq).
    by rewrite string_app_empty, all_chars_app, (all_lower_letter a Ha), Ha'.
  - intros Hs. apply star_spec. exists "", s. repeat split.
    apply star_spec. exists s, "". by rewrite string_app_empty.
Qed.

Lemma underscore_spec c : underscore c = true <-> c = Ascii.ascii_of_nat 95.
Proof.
  unfold underscore, char_between. split.
  - intros [Hlo Hhi]%andb_prop. apply Nat.leb_le in Hlo, Hhi.
    rewrite <- (Ascii.ascii_nat_embedding c). f_equal. lia.
  - by intros ->.
Qed.

Lemma camelCaseRegEx_sound (s : string) :
  test camelCaseRegEx s = true -> CamelCase s.
Proof.
  unfold test, camelCaseRegEx, CamelCase. simpl.
  destruct s as [| u s]; [done |]. intros [Hu Hs]%andb_prop.
  destruct s as [| l s]; [done |]. apply andb_prop in Hs as [Hl Hs].
  apply star_spec in Hs as (a & b & -> & Ha & Hb).
  apply star_spec in Hb as (a' & b' & -> & Ha' & Hb').
  destruct b' as [| z rest]; [done |]. apply andb_prop in Hb' as [Hz Hrest].
  apply String.eqb_eq in Hrest as ->.
  exists u, l, (a +:+ a'), z. rewrite string_app_assoc. repeat split; try done.
  by rewrite all_chars_app, Ha', (all_lower_letter a Ha).
Qed.

Lemma camelCaseRegEx_complete (s : string) :
  CamelCase s -> test camelCaseRegEx s = true.
Proof.
  unfold test, camelCaseRegEx, CamelCase. simpl.
  intros (u & l & middle & z & -> & Hu & Hl & Hmid & Hz).
  rewrite Hu, Hl. simpl. apply star_spec. exists "", (middle +:+ String z "").
  repeat split. apply star_spec. exists middle, (String z "").
  repeat split; [done |]. simpl. by rewrite Hz.
Qed.

Lemma mixedCaseRegEx_sound (s : string) :
  test mixedCaseRegEx s = true -> MixedCase s.
Proof.
  unfold test, mixedCaseRegEx, MixedCase. simpl.
  intros [Hscore | Hplain]%orb_prop.
  - destruct s as [| c s]; [done |]. apply andb_prop in Hscore as [Hc Hs].
    destruct s as [| l rest]; [done |]. apply andb_prop in Hs as [Hl Hrest].
    apply underscore_spec in Hc as ->. apply letters_spec in Hrest.
    exists l, rest. auto.
  - destruct s as [| l rest]; [done |]. apply andb_prop in Hplain as [Hl Hrest].
    apply letters_spec in Hrest. exists l, rest. auto.
Qed.

Lemma mixedCaseRegEx_complete (s : string) :
  MixedCase s -> test mixedCaseRegEx s = true.
Proof.
  unfold test, mixedCaseRegEx, MixedCase. simpl.
  intros (l & rest & [-> | ->] & Hl & Hrest); apply letters_spec in Hrest.
  - rewrite Hl, Hrest. apply orb_true_r.
  - by rewrite Hl, Hrest.
Qed.

(** X10. The names the rule [camelcase] accepts are exactly those made of
    a capital letter, a small letter, any letters and a closing small
    letter: at least three characters, letters only. *)
Theorem camelCaseRegEx_accepts (s : string) :
  test camelCaseRegEx s = true <-> CamelCase s.
Proof. split; [apply camelCaseRegEx_sound | apply camelCaseRegEx_complete]. Qed.

(** ** [camelcase] *)

(** X11. The handlers of [camelcase] report nothing on leaving a node,
    and on entering one report it, once, exactly when its name is not in
    CamelCase; the message gives the kind of declaration and the name.
    The rule subscribes to contracts, libraries, structs and events. *)
Theorem camelcase_reports_non_CamelCase (kind : string) (emitted : Emitted) :
  (camelcase_listener kind emitted = []
   <-> e_exit emitted = true \/ CamelCase (js_text (node_name (e_node emitted))))
  /\ (camelcase_listener kind emitted = []
      \/ camelcase_listener kind emitted
         = [reported (e_node emitted)
              (kind +:+ " name '" +:+ js_text (node_name (e_node emitted)) +:+
               "' doesn't follow the CamelCase notation")])
  /\ (forall context, exists subscriptions,
        verify0 camelcase context = Ok subscriptions
        /\ map fst subscriptions
           = ["ContractStatement"; "LibraryStatement"; "StructDeclaration";
              "EventDeclaration"]).
Proof.
  split; [| split]; [| | intros context; by eexists].
  - unfold camelcase_listener. destruct (e_exit emitted); simpl; [split; auto |].
    destruct (test camelCaseRegEx _) eqn:Htest; simpl.
    + split; [| done]. intros _. right. by apply camelCaseRegEx_sound.
    + split; [done |]. intros [? | Hcamel]; [done |].
      apply camelCaseRegEx_complete in Hcamel. congruence.
  - unfold camelcase_listener. destruct (e_exit emitted); simpl; [by left |].
    destruct (test camelCaseRegEx _); simpl; [by left | by right].
Qed.

(** For instance: one-letter names, names with a digit and names ending
    in a capital are reported; [Token] is not. *)
Example camelcase_samples :
  map (test camelCaseRegEx) ["Token"; "MyToken"; "A"; "Ab"; "Erc20"; "ERC"; "TokenA"; "token"]
  = [true; true; false; false; false; false; false; false].
Proof. reflexivity. Qed.

(** ** [mixedcase] *)

(** X12. The names the rule [mixedcase] accepts are exactly those made of
    an optional leading underscore, a small letter and any letters: no
    digits, no underscore elsewhere. *)
Theorem mixedCaseRegEx_accepts (s : string) :
  test mixedCaseRegEx s = true <-> MixedCase s.
Proof. split; [apply mixedCaseRegEx_sound | apply mixedCaseRegEx_complete]. Qed.

(** For instance: a leading underscore passes, a digit, an inner
    underscore or a leading capital does not. *)
Example mixedcase_samples :
  map (test mixedCaseRegEx)
      ["transfer"; "_owner"; "balanceOf"; "a"; "Token"; "_"; "__x"; "get_x"; "erc20"; ""]
  = [true; true; true; true; false; false; false; false; false; false].
Proof. reflexivity. Qed.

Lemma similar_handler_entered (emitted : Emitted) (p : Node) :
  e_exit emitted = false ->
  (ntype (e_node emitted) = "FunctionDeclaration" -> nparent (e_node emitted) = Some (Some p)) ->
  similar_handler emitted
  = Ok (if is_constructor (e_node emitted) || test mixedCaseRegEx (js_text (node_name (e_node emitted)))
        then [] else [reported (e_node emitted) (mixedcase_message (node_name (e_node emitted)))]).
Proof.
  intros Hexit Hparent. unfold similar_handler, is_constructor. rewrite Hexit.
  destruct (String.eqb (ntype (e_node emitted)) "FunctionDeclaration") eqn:Hfun; simpl.
  - apply String.eqb_eq in Hfun. unfold parent_node. rewrite (Hparent Hfun). simpl.
    destruct (andb (orb _ _) (strict_equal _ _)); simpl; [done |].
    
    by destruct (test mixedCaseRegEx _).
  - by destruct (test mixedCaseRegEx _).
Qed.

(** X13. On entering a function, a modifier or a modifier's use,
    [mixedcase] reports the node, once, unless its name is in mixedCase
    or the node is a constructor: a function declared directly in a
    contract or library of the same name. *)
Theorem mixedcase_exempts_constructors (emitted : Emitted) (p : Node) :
  e_exit emitted = false ->
  (ntype (e_node emitted) = "FunctionDeclaration" ->
   nparent (e_node emitted) = Some (Some p)) ->
  (similar_handler emitted = Ok []
   <-> is_constructor (e_node emitted) = true
       \/ MixedCase (js_text (node_name (e_node emitted))))
  /\ (similar_handler emitted = Ok []
      \/ similar_handler emitted
         = Ok [reported (e_node emitted) (mixedcase_message (node_name (e_node emitted)))]).
Proof.
  intros Hexit Hparent. rewrite (similar_handler_entered emitted p Hexit Hparent).
  destruct (is_constructor _); cbn [orb]; [split; [split; auto | auto] |].
  destruct (test mixedCaseRegEx _) eqn:Htest.
  - split; [| by left]. split; [| done]. intros _. right. by apply mixedCaseRegEx_sound.
  - split; [| by right]. split; [done |]. intros [? | Hmixed]; [done |].
    apply mixedCaseRegEx_complete in Hmixed. congruence.
Qed.

(** X14. A function declaration entered without a parent node makes the
    handler of [mixedcase] throw a TypeError, whatever the function's
    name: the constructor check reads the parent's type first. *)
Theorem mixedcase_function_needs_parent (emitted : Emitted) :
  e_exit emitted = false ->
  ntype (e_node emitted) = "FunctionDeclaration" ->
  (forall p, nparent (e_node emitted) <> Some (Some p)) ->
  exists kind,
    (kind = "null" \/ kind = "undefined")
    /\ similar_handler emitted
       = Throw ("TypeError: Cannot read property 'type' of " +:+ kind).
Proof.
  intros Hexit Hfun Hparent. unfold similar_handler, parent_node.
  rewrite Hexit, Hfun. simpl.
  destruct (nparent (e_node emitted)) as [[p |] |]; simpl.
  - by destruct (Hparent p).
  - exists "null". auto.
  - exists "undefined". auto.
Qed.


Lemma mixedcase_exempts_constructors_witness :
  (similar_handler Earlier.constructor_entered = Ok []
   <-> is_constructor (e_node Earlier.constructor_entered) = true
       \/ MixedCase (js_text (node_name (e_node Earlier.constructor_entered))))
  /\ (similar_handler Earlier.constructor_entered = Ok []
      \/ similar_handler Earlier.constructor_entered
         = Ok [reported (e_node Earlier.constructor_entered)
                 (mixedcase_message (node_name (e_node Earlier.constructor_entered)))]).
Proof.
  apply (mixedcase_exempts_constructors Earlier.constructor_entered
           (mkNode "ContractStatement" 1 0 [("name", VStr "Token")] None []));
    reflexivity.
Defined.

Lemma mixedcase_function_needs_parent_witness :
  exists kind,
    (kind = "null" \/ kind = "undefined")
    /\ similar_handler Earlier.detached_function
       = Throw ("TypeError: Cannot read property 'type' of " +:+ kind).
Proof.
  apply (mixedcase_function_needs_parent Earlier.detached_function);
    [reflexivity | reflexivity | intros p; discriminate].
Defined.

(** ** The command line tool *)

Section CliFacts.
Variable soliumRules : list (string * Value).

Lemma hasOwnProperty_spec rulename rules :
  hasOwnProperty rulename rules = true <-> rulename ∈ map fst rules.
Proof.
  unfold hasOwnProperty. induction rules as [| [k v] rules IH]; simpl.
  - split; [done | by intros ?%elem_of_nil].
  - rewrite orb_true_iff, IH, elem_of_cons, String.eqb_eq. tauto.
Qed.

Lemma hasOwnProperty_app rulename rules more :
  hasOwnProperty rulename (rules ++ more)
  = hasOwnProperty rulename rules || hasOwnProperty rulename more.
Proof. unfold hasOwnProperty. apply existsb_app. Qed.

Lemma assoc_set_fresh rulename v rules :
  hasOwnProperty rulename rules = false ->
  assoc_set rulename v rules = rules ++ [(rulename, v)].
Proof.
  unfold hasOwnProperty. induction rules as [| [k v'] rules IH]; simpl; [done |].
  intros [Hk Hrest]%orb_false_elim. by rewrite Hk, IH.
Qed.

Lemma assoc_get_app_own rulename rules more :
  hasOwnProperty rulename rules = true ->
  assoc_get rulename (rules ++ more) = assoc_get rulename rules.
Proof.
  unfold hasOwnProperty. induction rules as [| [k v] rules IH]; simpl; [done |].
  destruct (String.eqb rulename k); simpl; auto.
Qed.

Lemma filter_enabled_spec rulenames kept :
  filter_enabled soliumRules rulenames = Ok kept ->
  kept = filter (fun rulename =>
                   truthy (get_field "enabled" (assoc_get rulename soliumRules)) = true)
                rulenames.
Proof.
  revert kept. induction rulenames as [| rulename rest IH]; simpl; intros kept.
  - by intros [= <-].
  - unfold get_prop. destruct (nullish _); simpl; [done |].
    destruct (filter_enabled soliumRules rest) as [kept' |]; simpl; [| done].
    intros [= <-]. rewrite filter_cons, <- (IH kept' eq_refl).
    destruct (truthy _); by case_decide.
Qed.

Lemma enabledRules_spec rulenames rulename :
  enabledRules soliumRules = Ok rulenames ->
  rulename ∈ rulenames <-> enabled_in soliumRules rulename.
Proof.
  intros ->%filter_enabled_spec. unfold enabled_in.
  rewrite list_elem_of_filter. tauto.
Qed.

(** What the loop of [synchronizeWithSoliumRules] appends. *)
Lemma insert_missing_fold rulenames rules :
  exists added,
    fold_left insert_missing rulenames rules
    = rules ++ map (fun rulename => (rulename, VBool true)) added
    /\ NoDup added
    /\ forall rulename,
         rulename ∈ added
         <-> rulename ∈ rulenames /\ hasOwnProperty rulename rules = false.
Proof.
  revert rules. induction rulenames as [| name rest IH]; intros rules; simpl.
  - exists []. rewrite app_nil_r. split; [done |]. split; [constructor |].
    intros rulename. split; [by intros ?%elem_of_nil | by intros [?%elem_of_nil _]].
  - unfold insert_missing at 2. destruct (hasOwnProperty name rules) eqn:Hown; simpl.
    + destruct (IH rules) as (added & -> & Hnodup & Hadded). exists added.
      split; [done |]. split; [done |]. intros rulename. rewrite Hadded, elem_of_cons.
      split; [tauto |]. intros [[-> | ?] ?]; [congruence | done].
    + rewrite (assoc_set_fresh _ _ _ Hown).
      destruct (IH (rules ++ [(name, VBool true)])) as (added & -> & Hnodup & Hadded).
      exists (name :: added). split; [by rewrite <- app_assoc |].
      split.
      { constructor; [| done]. rewrite Hadded, hasOwnProperty_app. simpl.
        rewrite String.eqb_refl. simpl. rewrite orb_true_r. by intros [_ ?]. }
      intros rulename. rewrite !elem_of_cons, Hadded, hasOwnProperty_app. simpl.
      rewrite orb_false_r. destruct (String.eqb_spec rulename name) as [-> | Hne].
      * rewrite orb_true_r. split; [tauto |]. intros _. by left.
      * rewrite orb_false_r. split; [tauto |]. intros [[? | ?] ?]; [done | auto].
Qed.

End CliFacts.



Lemma synchronize_inv soliumRules rules rules' :
  synchronizeWithSoliumRules soliumRules rules = Ok rules' ->
  exists rulenames,
    enabledRules soliumRules = Ok rulenames
    /\ rules' = fold_left insert_missing rulenames rules.
Proof.
  unfold synchronizeWithSoliumRules.
  destruct (enabledRules soliumRules) as [rulenames | e]; simpl; [| done].
  intros [= <-]. by exists rulenames.
Qed.

Lemma insert_missing_covers rulenames rules rulename :
  rulename ∈ rulenames ->
  hasOwnProperty rulename (fold_left insert_missing rulenames rules) = true.
Proof.
  intros Hin. destruct (insert_missing_fold rulenames rules) as (added & -> & _ & Hadded).
  rewrite hasOwnProperty_app. destruct (hasOwnProperty rulename rules) eqn:Hown; [done |].
  simpl. apply hasOwnProperty_spec. rewrite map_map. simpl. rewrite map_id.
  by apply Hadded.
Qed.

Lemma insert_missing_settled rulenames rules :
  (forall rulename, rulename ∈ rulenames -> hasOwnProperty rulename rules = true) ->
  fold_left insert_missing rulenames rules = rules.
Proof.
  induction rulenames as [| name rest IH]; simpl; [done |]. intros Hall.
  unfold insert_missing at 2. rewrite (Hall name); [| by left]. simpl.
  apply IH. intros rulename Hin. apply Hall. by right.
Qed.

(** X17. After [--sync] every rule the shipped configuration enables is
    mentioned in the user's rules, the rules the user had mentioned read
    as before, and a second [--sync] changes nothing. *)
Theorem synchronize_settles
    (soliumRules rules rules' : list (string * Value)) :
  synchronizeWithSoliumRules soliumRules rules = Ok rules' ->
  synchronizeWithSoliumRules soliumRules rules' = Ok rules'
  /\ (forall rulename,
        enabled_in soliumRules rulename -> hasOwnProperty rulename rules' = true)
  /\ (forall rulename,
        hasOwnProperty rulename rules = true ->
        assoc_get rulename rules' = assoc_get rulename rules).
Proof.
  intros (rulenames & Henabled & ->)%synchronize_inv.
  unfold synchronizeWithSoliumRules. rewrite Henabled. simpl.
  split; [| split].
  - f_equal. apply insert_missing_settled. intros rulename Hin.
    by apply insert_missing_covers.
  - intros rulename Hin. apply insert_missing_covers.
    by apply (enabledRules_spec soliumRules rulenames rulename Henabled).
  - intros rulename Hown.
    destruct (insert_missing_fold rulenames rules) as (added & -> & _ & _).
    by apply assoc_get_app_own.
Qed.

Lemma synchronize_settles_witness :
  synchronizeWithSoliumRules Shipped.soliumRules Shipped.synchronized
  = Ok Shipped.synchronized
  /\ (forall rulename,
        enabled_in Shipped.soliumRules rulename ->
        hasOwnProperty rulename Shipped.synchronized = true)
  /\ (forall rulename,
        hasOwnProperty rulename Shipped.userRules = true ->
        assoc_get rulename Shipped.synchronized = assoc_get rulename Shipped.userRules).
Proof.
  apply (synchronize_settles Shipped.soliumRules Shipped.userRules). reflexivity.
Defined.

Lemma assoc_set_same rulename v rules :
  hasOwnProperty rulename rules = true ->
  Forall (fun entry => snd entry = v) rules ->
  assoc_set rulename v rules = rules.
Proof.
  unfold hasOwnProperty. induction rules as [| [k v'] rules IH]; simpl; [done |].
  intros Hown Hall. apply Forall_cons in Hall as [Hv Hall]. simpl in Hv. subst v'.
  destruct (String.eqb_spec rulename k) as [-> | Hne]; [done |].
  simpl in Hown. by rewrite IH.
Qed.

Lemma set_all_fold rulenames rules :
  Forall (fun entry => snd entry = VBool true) rules ->
  fold_left (fun rules rulename => assoc_set rulename (VBool true) rules) rulenames rules
  = fold_left insert_missing rulenames rules.
Proof.
  revert rules. induction rulenames as [| name rest IH]; intros rules Hall; simpl; [done |].
  unfold insert_missing at 2. destruct (hasOwnProperty name rules) eqn:Hown; simpl.
  - rewrite (assoc_set_same _ _ _ Hown Hall). by apply IH.
  - apply IH. rewrite (assoc_set_fresh _ _ _ Hown). apply Forall_app. split; [done |].
    by constructor.
Qed.

(** X18. The configuration [--init] creates has no custom rules file and
    exactly the rules that [--sync] gives a user without rules: those the
    shipped configuration enables, each set to [true]; [lint] accepts it
    as a configuration object. *)
Theorem createDefaultConfigJSON_enables_shipped_rules
    (soliumRules : list (string * Value)) (config : Value) :
  createDefaultConfigJSON soliumRules = Ok config ->
  exists rules,
    config = VObj [("custom-rules-filename", VNull); ("rules", VObj rules)]
    /\ synchronizeWithSoliumRules soliumRules [] = Ok rules
    /\ isValid config = true
    /\ forall rulename,
         assoc_get rulename rules = VBool true /\ enabled_in soliumRules rulename
         \/ assoc_get rulename rules = VUndefined /\ ~ enabled_in soliumRules rulename.
Proof.
  unfold createDefaultConfigJSON, synchronizeWithSoliumRules.
  destruct (enabledRules soliumRules) as [rulenames | e] eqn:Henabled; simpl; [| done].
  intros [= <-]. rewrite (set_all_fold rulenames [] (Forall_nil_2 _)).
  eexists. split; [reflexivity |]. split; [reflexivity |]. split; [reflexivity |].
  intros rulename.
  destruct (insert_missing_fold rulenames []) as (added & -> & _ & Hadded). simpl.
  specialize (Hadded rulename).
  rewrite (enabledRules_spec soliumRules rulenames rulename Henabled) in Hadded.
  assert (forall names,
             (rulename ∈ names
              -> assoc_get rulename (map (fun n => (n, VBool true)) names) = VBool true)
             /\ (rulename ∉ names
                 -> assoc_get rulename (map (fun n => (n, VBool true)) names) = VUndefined))
    as Hread.
  { induction names as [| n names [IHin IHout]]; simpl.
    - split; [by intros ?%elem_of_nil | done].
    - destruct (String.eqb_spec rulename n) as [-> | Hne].
      + split; [done |]. intros []. by left.
      + split; [intros [? | ?]%elem_of_cons; [done | auto] |].
        intros Hout. apply IHout. intros ?. apply Hout. by right. }
  destruct (decide (rulename ∈ added)) as [Hin | Hout].
  - left. split; [by apply Hread | by apply Hadded].
  - right. split; [by apply Hread |]. intros Hen. apply Hout, Hadded. by split.
Qed.

Lemma createDefaultConfigJSON_enables_shipped_rules_witness :
  exists rules,
    VObj [("custom-rules-filename", VNull);
          ("rules", VObj [("camelcase", VBool true); ("mixedcase", VBool true)])]
    = VObj [("custom-rules-filename", VNull); ("rules", VObj rules)]
    /\ synchronizeWithSoliumRules Shipped.soliumRules [] = Ok rules
    /\ isValid (VObj [("custom-rules-filename", VNull);
                      ("rules", VObj [("camelcase", VBool true); ("mixedcase", VBool true)])])
       = true
    /\ forall rulename,
         assoc_get rulename rules = VBool true /\ enabled_in Shipped.soliumRules rulename
         \/ assoc_get rulename rules = VUndefined /\ ~ enabled_in Shipped.soliumRules rulename.
Proof.
  apply (createDefaultConfigJSON_enables_shipped_rules Shipped.soliumRules). reflexivity.
Defined.

(** ** The events of a walk *)

Lemma bind_congr {A B} (c c' : M A) (k k' : A -> M B) w :
  c w = c' w -> (forall a w', k a w' = k' a w') -> bind c k w = bind c' k' w.
Proof. unfold bind. intros -> Hk. by destruct (c' w) as [[a | e] w']. Qed.

Lemma bind_assoc {A B C} (c : M A) (k : A -> M B) (k' : B -> M C) w :
  bind (bind c k) k' w = bind c (fun a => bind (k a) k') w.
Proof. unfold bind. by destruct (c w) as [[a | e] w']. Qed.

Lemma bind_ret_l {A B} (a : A) (k : A -> M B) w : bind (ret a) k w = k a w.
Proof. reflexivity. Qed.

Lemma forEach_app {A} (f : A -> M unit) (a b : list A) w :
  forEach f (a ++ b) w = (let! _ := forEach f a in forEach f b) w.
Proof.
  revert w. induction a as [| x a IH]; intros w; simpl; [done |].
  rewrite bind_assoc. apply bind_congr; [done |]. intros [] w'. apply IH.
Qed.

Section Events.
Context `{AstUtils}.

(** X19. The walk of [lint] is the sequence of its events: every node is
    announced on entering it, before the nodes below it, and on leaving
    it, after them, children from left to right; an error thrown on the
    way ends the walk there, and a walk that ends returns the tree
    without [parent] properties. *)
Theorem traverse_emits_events (node : Node) (parent : option Node) (w : World) :
  traverse node parent w
  = (let! _ := forEach (fun emitted => emit (ntype (e_node emitted)) emitted)
                       (events node parent) in
     ret (strip_parent node)) w.
Proof.
  revert parent w. induction node as [node IH] using Node_children_ind.
  intros parent w.
  set (announce := fun emitted : Emitted => emit (ntype (e_node emitted)) emitted) in *.
  assert (forall p cs, Forall (fun c => forall parent w,
              traverse c parent w
              = (let! _ := forEach announce (events c parent) in
                 ret (strip_parent c)) w) cs ->
            forall w,
              (fix walk (cs : list Node) : M (list Node) :=
                 match cs with
                 | [] => ret []
                 | c :: rest =>
                     let! c' := traverse c p in
                     let! rest' := walk rest in
                     ret (c' :: rest')
                 end) cs w
              = (let! _ := forEach announce (flat_map (fun c => events c p) cs) in
                 ret (map strip_parent cs)) w) as Hwalk.
  { intros p cs Hcs. induction Hcs as [| c cs Hc _ IHcs]; intros w0; [done |].
    cbn [flat_map map].
    etrans; [apply bind_congr; [apply Hc | reflexivity] |].
    rewrite bind_assoc. symmetry.
    etrans; [apply bind_congr; [apply forEach_app | reflexivity] |].
    rewrite bind_assoc. apply bind_congr; [done |]. intros [] w1.
    symmetry. unfold bind at 1. cbn [ret].
    etrans; [apply bind_congr; [apply IHcs | reflexivity] |].
    rewrite bind_assoc. by apply bind_congr. }
  destruct node as [type s e props par kids]. simpl in IH.
  change (traverse (mkNode type s e props par kids) parent w)
    with ((let! entered := visitor_enter (mkNode type s e props par kids) parent in
           let! kids' :=
             (fix walk (cs : list Node) : M (list Node) :=
                match cs with
                | [] => ret []
                | c :: rest =>
                    let! c' := traverse c (Some entered) in
                    let! rest' := walk rest in
                    ret (c' :: rest')
                end) kids in
           visitor_leave (set_children entered kids')) w).
  unfold visitor_enter, enterNode. rewrite bind_assoc.
  cbn [events forEach nchildren]. rewrite bind_assoc.
  apply bind_congr; [done |]. intros [] w1.
  etrans; [apply bind_congr; [reflexivity |] |].
  { intros entered w2. apply bind_congr; [apply (Hwalk _ kids IH) | reflexivity]. }
  rewrite bind_ret_l, bind_assoc. symmetry.
  etrans; [apply bind_congr; [apply forEach_app | reflexivity] |].
  rewrite bind_assoc. apply bind_congr; [done |]. intros [] w2.
  cbn [forEach]. unfold visitor_leave, leaveNode. rewrite !bind_assoc.
  reflexivity.
Qed.

End Events.

(** ** [value-in-payable] *)

Lemma inspect_app (a b : list Emitted) (current : option Node) :
  inspect (a ++ b) current
  = match inspect a current with
    | (Ok reports, current') =>
        match inspect b current' with
        | (Ok more, final) => (Ok (reports ++ more), final)
        | thrown => thrown
        end
    | thrown => thrown
    end.
Proof.
  revert current. induction a as [| emitted a IH]; intros current; simpl.
  - by destruct (inspect b current) as [[more | e] final].
  - destruct (value_in_payable _) as [inspector |]; [| apply IH].
    destruct (inspector emitted current) as [[reports | e] current']; [| done].
    rewrite IH. destruct (inspect a current') as [[more | e] current'']; [| done].
    destruct (inspect b current'') as [[more' | e] final]; [| done].
    by rewrite app_assoc.
Qed.

Lemma isMsgValueAccess_readable (node : Node) :
  ntype node = "MemberExpression" ->
  readable node = true ->
  isMsgValueAccess node = Ok (is_msg_value node).
Proof.
  unfold readable, isMsgValueAccess, is_msg_value, get_prop. intros ->. simpl.
  intros [[Hobject Hproperty]%andb_prop _]%andb_prop.
  apply negb_true_iff in Hobject. rewrite Hobject. simpl.
  destruct (strict_equal _ (VStr "msg")); simpl in *; [| done].
  apply negb_true_iff in Hproperty. by rewrite Hproperty.
Qed.

Lemma any_payable_readable (modifiers : list Value) :
  forallb (fun modifier => negb (nullish modifier)) modifiers = true ->
  any_payable modifiers
  = Ok (existsb (fun modifier => strict_equal (get_field "name" modifier) (VStr "payable"))
                modifiers).
Proof.
  induction modifiers as [| modifier rest IH]; simpl; [done |].
  intros [Hmodifier Hrest]%andb_prop. apply negb_true_iff in Hmodifier.
  unfold get_prop. rewrite Hmodifier. simpl.
  destruct (strict_equal _ (VStr "payable")); simpl; auto.
Qed.

Lemma isInPayableFunction_readable (declaration : Node) :
  ntype declaration = "FunctionDeclaration" ->
  readable declaration = true ->
  isInPayableFunction declaration = Ok (payable declaration).
Proof.
  unfold readable, isInPayableFunction, payable. intros ->. simpl.
  apply any_payable_readable.
Qed.

Lemma inspect_leave_plain (node : Node) (current : option Node) :
  is_function node = false ->
  inspect [mkEmitted (strip_parent node) true] current = (Ok [], current).
Proof.
  unfold is_function. destruct node as [type s e props par kids]. simpl.
  unfold value_in_payable. intros ->.
  by destruct (String.eqb type "MemberExpression").
Qed.

Lemma inspect_enter_inside (node : Node) (parent : option Node)
    (declaration : Node) (pays : bool) :
  is_function node = false ->
  readable node = true ->
  isInPayableFunction declaration = Ok pays ->
  inspect [mkEmitted (set_parent node parent) false] (Some declaration)
  = (Ok (if is_msg_value node && negb pays
         then [reported (set_parent node parent)
                 "'msg.value' should only be used in a payable function"]
         else []),
     Some declaration).
Proof.
  unfold is_function. destruct node as [type s e props par kids].
  cbn [ntype inspect e_node set_parent]. unfold value_in_payable.
  intros -> Hreadable Hpays. unfold is_msg_value at 1. cbn [ntype].
  destruct (String.eqb type "MemberExpression") eqn:Hmember; [| done].
  apply String.eqb_eq in Hmember. subst type.
  unfold inspectMemberExpression. cbn [e_exit e_node].
  rewrite (isMsgValueAccess_readable
             (set_parent (mkNode "MemberExpression" s e props par kids) parent)
             eq_refl Hreadable).
  unfold is_msg_value. cbn [ntype nprops set_parent]. rewrite Hpays.
  replace (String.eqb "MemberExpression" "MemberExpression") with true by reflexivity.
  cbn [andb result_bind].
  destruct (strict_equal _ _ && equals_value _); destruct pays; by rewrite ?app_nil_r.
Qed.

Lemma inspect_enter_outside (node : Node) (parent : option Node) :
  is_function node = false ->
  readable node = true ->
  inspect [mkEmitted (set_parent node parent) false] None = (Ok [], None).
Proof.
  unfold is_function. destruct node as [type s e props par kids].
  cbn [ntype inspect e_node set_parent]. unfold value_in_payable.
  intros -> Hreadable.
  destruct (String.eqb type "MemberExpression") eqn:Hmember; [| done].
  apply String.eqb_eq in Hmember. subst type.
  unfold inspectMemberExpression. cbn [e_exit e_node].
  rewrite (isMsgValueAccess_readable
             (set_parent (mkNode "MemberExpression" s e props par kids) parent)
             eq_refl Hreadable).
  cbn [result_bind]. by destruct (is_msg_value _).
Qed.

(** Below a function, where no other function begins. *)
Lemma inspect_inside (node : Node) :
  forall (parent : option Node) (declaration : Node) (pays : bool),
    all_nodes (fun n => negb (is_function n)) node = true ->
    all_nodes readable node = true ->
    isInPayableFunction declaration = Ok pays ->
    inspect (events node parent) (Some declaration)
    = (Ok (if pays then []
           else map (fun n => reported n "'msg.value' should only be used in a payable function")
                    (accesses node parent)),
       Some declaration).
Proof.
  induction node as [node IH] using Node_children_ind.
  intros parent declaration pays Hplain Hreadable Hpays.
  assert (forall p,
             forallb (all_nodes (fun n => negb (is_function n))) (nchildren node) = true ->
             forallb (all_nodes readable) (nchildren node) = true ->
             inspect (flat_map (fun c => events c p) (nchildren node)) (Some declaration)
             = (Ok (if pays then []
                    else map (fun n => reported n
                                "'msg.value' should only be used in a payable function")
                             (flat_map (fun c => accesses c p) (nchildren node))),
                Some declaration)) as Hkids.
  { intros p. induction IH as [| c cs Hc _ IHcs]; simpl.
    - intros _ _. by destruct pays.
    - intros [Hc1 Hcs1]%andb_prop [Hc2 Hcs2]%andb_prop.
      rewrite inspect_app, (Hc p declaration pays Hc1 Hc2 Hpays), (IHcs Hcs1 Hcs2).
      destruct pays; [done |]. by rewrite map_app. }
  destruct node as [type s e props par kids].
  cbn [all_nodes nchildren] in Hplain, Hreadable, Hkids.
  apply andb_prop in Hplain as [Hfun Hplain]. apply andb_prop in Hreadable as [Hnode Hreadable].
  apply negb_true_iff in Hfun.
  cbn [events accesses nchildren].
  change (inspect (?x :: ?rest) ?c) with (inspect ([x] ++ rest) c).
  rewrite inspect_app, (inspect_enter_inside _ parent declaration pays Hfun Hnode Hpays).
  rewrite inspect_app, (Hkids _ Hplain Hreadable), (inspect_leave_plain _ _ Hfun).
  rewrite app_nil_r. destruct pays; [by rewrite andb_false_r |].
  rewrite andb_true_r, map_app. by destruct (is_msg_value _).
Qed.

Lemma inspect_inside_children (cs : list Node) (p : option Node)
    (declaration : Node) (pays : bool) :
  forallb (all_nodes (fun n => negb (is_function n))) cs = true ->
  forallb (all_nodes readable) cs = true ->
  isInPayableFunction declaration = Ok pays ->
  inspect (flat_map (fun c => events c p) cs) (Some declaration)
  = (Ok (if pays then []
         else map (fun n => reported n "'msg.value' should only be used in a payable function")
                  (flat_map (fun c => accesses c p) cs)),
     Some declaration).
Proof.
  intros Hplain Hreadable Hpays. induction cs as [| c cs IH]; simpl.
  - by destruct pays.
  - simpl in Hplain, Hreadable.
    apply andb_prop in Hplain as [Hc1 Hcs1]. apply andb_prop in Hreadable as [Hc2 Hcs2].
    rewrite inspect_app, (inspect_inside c p declaration pays Hc1 Hc2 Hpays), (IH Hcs1 Hcs2).
    destruct pays; [done |]. by rewrite map_app.
Qed.

Lemma inspect_enter_function (node : Node) (parent : option Node) (current : option Node) :
  is_function node = true ->
  inspect [mkEmitted (set_parent node parent) false] current
  = (Ok [], Some (set_parent node parent)).
Proof.
  unfold is_function. destruct node as [type s e props par kids]. simpl.
  unfold value_in_payable. by intros ->.
Qed.

Lemma inspect_leave_function (node : Node) (current : option Node) :
  is_function node = true ->
  inspect [mkEmitted (strip_parent node) true] current = (Ok [], None).
Proof.
  unfold is_function. destruct node as [type s e props par kids]. simpl.
  unfold value_in_payable. by intros ->.
Qed.

Lemma events_unfold (node : Node) (parent : option Node) :
  events node parent
  = [mkEmitted (set_parent node parent) false]
    ++ flat_map (fun c => events c (Some (delete_parent node))) (nchildren node)
    ++ [mkEmitted (strip_parent node) true].
Proof. by destruct node. Qed.

Lemma offenders_unfold (node : Node) (parent : option Node) :
  offenders node parent
  = if is_function node then
      if payable node then []
      else flat_map (fun c => accesses c (Some (delete_parent node))) (nchildren node)
    else flat_map (fun c => offenders c (Some (delete_parent node))) (nchildren node).
Proof. by destruct node. Qed.

Lemma no_nested_function_unfold (node : Node) :
  no_nested_function node
  = if is_function node then
      forallb (all_nodes (fun n => negb (is_function n))) (nchildren node)
    else forallb no_nested_function (nchildren node).
Proof. by destruct node. Qed.

Lemma all_nodes_unfold (holds : Node -> bool) (node : Node) :
  all_nodes holds node = holds node && forallb (all_nodes holds) (nchildren node).
Proof. by destruct node. Qed.

(** X20. Over the walk of a tree in which no function is declared
    within a function, and whose member expressions and function
    modifiers have the properties the rule reads, [value-in-payable]
    reports exactly the reads of [msg.value] that stand inside a function
    without a modifier named [payable], each once and in the order of the
    text; a read outside every function is not reported.  The walk over,
    the rule remembers no function. *)
Theorem value_in_payable_reports_offenders (tree : Node) (parent : option Node) :
  no_nested_function tree = true ->
  all_nodes readable tree = true ->
  inspect (events tree parent) None
  = (Ok (map (fun n => reported n "'msg.value' should only be used in a payable function")
             (offenders tree parent)),
     None).
Proof.
  revert parent. induction tree as [node IH] using Node_children_ind.
  intros parent. rewrite no_nested_function_unfold, all_nodes_unfold.
  intros Hflat [Hnode Hreadable]%andb_prop.
  rewrite events_unfold, offenders_unfold, inspect_app.
  destruct (is_function node) eqn:Hfun.
  - (* a function: its body is walked with the function remembered *)
    rewrite (inspect_enter_function _ _ _ Hfun). cbv beta iota. rewrite inspect_app.
    assert (isInPayableFunction (set_parent node parent) = Ok (payable node)) as Hpays.
    { unfold is_function in Hfun. apply String.eqb_eq in Hfun.
      rewrite <- (isInPayableFunction_readable node Hfun Hnode). by destruct node. }
    rewrite (inspect_inside_children _ _ _ _ Hflat Hreadable Hpays). cbv beta iota.
    rewrite (inspect_leave_function _ _ Hfun). simpl. rewrite app_nil_r.
    by destruct (payable node).
  - (* outside the functions nothing is reported *)
    rewrite (inspect_enter_outside _ _ Hfun Hnode). cbv beta iota. rewrite inspect_app.
    assert (forall p,
               inspect (flat_map (fun c => events c p) (nchildren node)) None
               = (Ok (map (fun n => reported n
                             "'msg.value' should only be used in a payable function")
                          (flat_map (fun c => offenders c p) (nchildren node))),
                  None)) as ->.
    { intros p. induction IH as [| c cs Hc _ IHcs]; simpl; [done |].
      simpl in Hflat, Hreadable.
      apply andb_prop in Hflat as [Hc1 Hcs1]. apply andb_prop in Hreadable as [Hc2 Hcs2].
      by rewrite inspect_app, (Hc p Hc1 Hc2), (IHcs Hcs1 Hcs2), map_app. }
    cbv beta iota. rewrite (inspect_leave_plain _ _ Hfun). simpl. by rewrite app_nil_r.
Qed.

Lemma value_in_payable_reports_offenders_witness :
  inspect (events Payable.contract None) None
  = (Ok (map (fun n => reported n "'msg.value' should only be used in a payable function")
             (offenders Payable.contract None)),
     None).
Proof.
  apply (value_in_payable_reports_offenders Payable.contract None); reflexivity.
Defined.

(** In the sample contract the two reads in [peek] are reported, the
    read in the modifier and the read in [deposit] are not. *)
Example value_in_payable_sample :
  map (fun n => (nstart n, nend n)) (offenders Payable.contract None)
  = [(4, 10); (4, 30)].
Proof. reflexivity. Qed.

(** A function declared within a function makes the rule forget the
    outer one: the read after it goes unreported. *)
Example value_in_payable_forgets_outer_function :
  inspect (events Payable.nested None) None = (Ok [], None)
  /\ map (fun n => (nstart n, nend n)) (offenders Payable.nested None) = [(3, 0)].
Proof. split; reflexivity. Qed.

(** ** The two revisions of [createDefaultConfigJSON] *)

Lemma set_all_own (rulenames : list string) (rulename : string) :
  hasOwnProperty rulename
    (fold_left (fun rules name => assoc_set name (VBool true) rules) rulenames [])
  = true
  <-> rulename ∈ rulenames.
Proof.
  rewrite (set_all_fold rulenames [] (Forall_nil_2 _)).
  destruct (insert_missing_fold rulenames []) as (added & -> & _ & Hadded). simpl.
  rewrite hasOwnProperty_spec, map_map. simpl. rewrite map_id, Hadded. tauto.
Qed.

Lemma filter_enabled_all (soliumRules : list (string * Value)) (rulenames : list string) :
  (forall rulename, rulename ∈ rulenames ->
                    truthy (get_field "enabled" (assoc_get rulename soliumRules)) = true) ->
  filter_enabled soliumRules rulenames = Ok rulenames.
Proof.
  induction rulenames as [| name rest IH]; intros Hall; simpl; [done |].
  assert (truthy (get_field "enabled" (assoc_get name soliumRules)) = true) as Hname
    by (apply Hall; by left).
  unfold get_prop. destruct (assoc_get name soliumRules); try done; simpl.
  all: rewrite IH by (intros rulename Hin; apply Hall; by right); simpl.
  all: by simpl in Hname; rewrite ?Hname.
Qed.

(** X21. The earlier [--init] writes every shipped rule, the rules
    shipped disabled included; the later one writes the same object
    exactly when every shipped rule is enabled. *)
Theorem createDefaultConfigJSON_revisions (soliumRules : list (string * Value)) :
  (exists rules,
      createDefaultConfigJSON0 soliumRules
      = VObj [("custom-rules-filename", VNull); ("rules", VObj rules)]
      /\ forall rulename,
           hasOwnProperty rulename rules = true <-> rulename ∈ map fst soliumRules)
  /\ (createDefaultConfigJSON soliumRules = Ok (createDefaultConfigJSON0 soliumRules)
      <-> forall rulename,
            rulename ∈ map fst soliumRules ->
            truthy (get_field "enabled" (assoc_get rulename soliumRules)) = true).
Proof.
  split.
  - eexists. split; [reflexivity |]. intros rulename. apply set_all_own.
  - unfold createDefaultConfigJSON, createDefaultConfigJSON0, enabledRules. split.
    + destruct (filter_enabled soliumRules (map fst soliumRules)) as [kept | e] eqn:Hkept;
        simpl; [| done].
      intros [= Hsame] rulename Hin.
      apply (set_all_own (map fst soliumRules)) in Hin. rewrite <- Hsame in Hin.
      apply set_all_own in Hin. apply filter_enabled_spec in Hkept. subst kept.
      by apply list_elem_of_filter in Hin as [Hin _].
    + intros Hall. by rewrite (filter_enabled_all _ _ Hall).
Qed.

(** For instance, with a rule shipped disabled the two differ. *)
Example createDefaultConfigJSON_revisions_differ :
  createDefaultConfigJSON Shipped.soliumRules
  = Ok (VObj [("custom-rules-filename", VNull);
              ("rules", VObj [("camelcase", VBool true); ("mixedcase", VBool true)])])
  /\ createDefaultConfigJSON0 Shipped.soliumRules
     = VObj [("custom-rules-filename", VNull);
             ("rules", VObj [("camelcase", VBool true); ("lbrace", VBool true);
                             ("mixedcase", VBool true)])].
Proof. split; reflexivity. Qed.

(** ** Resetting by hand *)

(** X22. Calling [reset] and then [lint] with [noReset] is calling [lint]
    without it, result and session alike, for arguments that [lint]
    accepts. *)
Theorem reset_then_lint_noReset
    `{AstUtils} `{RuleRegistry} `{RuleInspector} `{ConfigInspector} `{Parser}
    (sourceCode : SourceArg) (text : string) (config : loc) (w : World) :
  decode_buffer sourceCode = Ok (SrcValue (VStr text)) ->
  String.eqb text "" = false ->
  isValid (default VUndefined (heap w !! config)) = true ->
  (let! _ := reset in lint sourceCode config true) w = lint sourceCode config false w.
Proof.
  intros Hdec Htext Hvalid.
  rewrite (lint_accepted sourceCode text config false w Hdec Htext Hvalid).
  unfold bind at 1 2. cbn [negb]. destruct (reset w) as [[[] | e] w1] eqn:Hreset;
    [| by injection Hreset].
  assert (heap w1 !! config = heap w !! config) as Hcell.
  { unfold reset in Hreset. injection Hreset as <-. simpl.
    destruct (heap w !! config) as [v |] eqn:Hcfg; [| done].
    rewrite lookup_insert_ne; [done |]. intros <-.
    apply (is_fresh (dom (heap w))). apply elem_of_dom. by exists v. }
  rewrite (lint_accepted sourceCode text config true w1 Hdec Htext);
    [done | by rewrite Hcell].
Qed.

Lemma reset_then_lint_noReset_witness :
  (let! _ := reset in Sample.run_lint "contract A {}" 1 true) Sample.first_call.2
  = Sample.run_lint "contract A {}" 1 false Sample.first_call.2.
Proof.
  apply (reset_then_lint_noReset
           (H := Sample.astUtils) (H0 := Sample.registry) (H1 := Sample.ruleInspector)
           (H2 := Sample.configInspector) (H3 := Sample.parser)
           (SrcValue (VStr "contract A {}")) "contract A {}" 1%positive
           Sample.first_call.2);
    reflexivity.
Defined.
